(** * soundshare: the per-track signal chain and the multi-stem mixer

    A shallow embedding of the audio controllers of
    [src/components/TrackCard.tsx] (single-track player) and
    [src/components/MultiTrackPlayer.tsx] (multi-stem player).

    The Tone.js objects the components hold are modelled by the parameter
    values the components write to them; the node graph is modelled by its
    list of connections.  JavaScript numbers are modelled by exact rationals
    [Q] wherever the code only copies, adds, multiplies or divides them, and
    by real numbers in the one place where the code calls [Math.log2]. *)

From Stdlib Require Import QArith Qround Reals Lqa Lra Lia List Ascii.
From stdpp Require Import gmap strings list fin_maps pretty.

Local Open Scope Q_scope.

(** ** The audio engine as the components see it *)

Module Tone.

(** The kinds of node the two players create. *)
Inductive Node :=
  | Player | PitchShift | Volume | Panner | EQ3
  | Reverb | FeedbackDelay | Distortion | Chorus | AmplitudeEnvelope
  | Recorder | Destination.

#[global] Instance Node_eq_dec : EqDecision Node.
Proof. solve_decision. Defined.

(** A graph is the list of live connections [(source, target)]. *)
Definition Graph := list (Node * Node).

(** [a.connect(b)]: the Web Audio graph keeps one connection per pair. *)
Definition connect (a b : Node) (g : Graph) : Graph :=
  if bool_decide ((a, b) ∈ g) then g else g ++ [(a, b)].

(** [a.disconnect()]: drops every outgoing connection of [a]. *)
Definition disconnect (a : Node) (g : Graph) : Graph :=
  filter (λ e, e.1 ≠ a) g.

(** [a.toDestination()]. *)
Definition toDestination (a : Node) (g : Graph) : Graph :=
  connect a Destination g.

(** Transport state of a [Tone.Player]: [Started t o] was started by
    [start(t, o)], scheduled at time [t] from buffer offset [o]; [start()]
    without a time is [Started None 0], as soon as possible. *)
Inductive PlayerState :=
  | Stopped
  | Started (time : option Q) (offset : Q).

Record PlayerNode := mkPlayer {
  player_loop : bool;
  player_playbackRate : Q;
  player_state : PlayerState
}.

(** A [Tone.Volume] has one gain parameter, [volume.value] in decibels,
    and [None] stands for its value [-Infinity].  Muting goes through that
    parameter: the node keeps in [_unmutedVolume] the value to put back. *)
Record VolumeNode := mkVolume {
  vol_volume : option Q;
  vol_unmutedVolume : Q
}.

(** The getter [mute]: [this.volume.value === -Infinity]. *)
Definition vol_mute (v : VolumeNode) : bool :=
  match vol_volume v with
  | None => true
  | Some _ => false
  end.

(** The setter [mute]:
    [if (!this.mute && mute) { this._unmutedVolume = this.volume.value;
       this.volume.value = -Infinity }
     else if (this.mute && !mute) { this.volume.value = this._unmutedVolume }]. *)
Definition setMute (mute : bool) (v : VolumeNode) : VolumeNode :=
  match vol_volume v, mute with
  | Some x, true => mkVolume None x
  | None, false => mkVolume (Some (vol_unmutedVolume v)) (vol_unmutedVolume v)
  | _, _ => v
  end.

(** [volume.value = x], for a finite [x]. *)
Definition setVolumeValue (x : Q) (v : VolumeNode) : VolumeNode :=
  mkVolume (Some x) (vol_unmutedVolume v).

Record EQ3Node := mkEQ3 { eq_low : Q; eq_mid : Q; eq_high : Q }.
Record ReverbNode := mkReverb { reverb_decay : Q; reverb_wet : Q }.
Record DelayNode := mkDelay {
  delay_delayTime : Q; delay_feedback : Q; delay_wet : Q }.
Record DistortionNode := mkDistortion {
  dist_distortion : Q; dist_wet : Q }.
Record EnvelopeNode := mkEnvelope {
  env_attack : Q; env_decay : Q; env_sustain : Q; env_release : Q;
  env_gate : option Q  (* [Some t] after [triggerAttack(t)] *)
}.
Record PitchShiftNode := mkPitchShift { ps_pitch : Q }.

End Tone.

(** ** The multi-stem player, [MultiTrackPlayer.tsx] *)

Module MultiTrackPlayer.
Import Tone.

Record Stem := mkStem {
  id : string;
  stemType : string;
  title : string;
  filename : string;
  filePath : string;
  order : Z
}.

(** The per-stem entry of the [stemStates] React state. *)
Record StemState := mkStemState {
  muted : bool;
  solo : bool;
  volume : Q;
  pan : Q;
  lowGain : Q;
  midGain : Q;
  highGain : Q;
  reverbEnabled : bool;
  reverbMix : Q;
  delayEnabled : bool;
  delayTime : Q;
  delayFeedback : Q;
  delayMix : Q;
  distortionEnabled : bool;
  distortionAmount : Q;
  pitchShift : Q;
  envelopeEnabled : bool;
  attack : Q;
  decay : Q;
  sustain : Q;
  release : Q
}.

(** [updateStemParam(stemId, param, value)] is called with the field name and
    a value of the field's type; [Param] pairs the two.  [setField p s] is
    the object spread [{ ...s, [param]: value }]. *)
Inductive Param :=
  | P_muted (value : bool)
  | P_solo (value : bool)
  | P_volume (value : Q)
  | P_pan (value : Q)
  | P_lowGain (value : Q)
  | P_midGain (value : Q)
  | P_highGain (value : Q)
  | P_reverbEnabled (value : bool)
  | P_reverbMix (value : Q)
  | P_delayEnabled (value : bool)
  | P_delayTime (value : Q)
  | P_delayFeedback (value : Q)
  | P_delayMix (value : Q)
  | P_distortionEnabled (value : bool)
  | P_distortionAmount (value : Q)
  | P_pitchShift (value : Q)
  | P_envelopeEnabled (value : bool)
  | P_attack (value : Q)
  | P_decay (value : Q)
  | P_sustain (value : Q)
  | P_release (value : Q).

Definition setField (p : Param) (s : StemState) : StemState :=
  match p with
  | P_muted v =>
      mkStemState v (s.(solo)) (s.(volume)) (s.(pan)) (s.(lowGain))
        (s.(midGain)) (s.(highGain)) (s.(reverbEnabled)) (s.(reverbMix))
        (s.(delayEnabled)) (s.(delayTime)) (s.(delayFeedback)) (s.(delayMix))
        (s.(distortionEnabled)) (s.(distortionAmount)) (s.(pitchShift))
        (s.(envelopeEnabled)) (s.(attack)) (s.(decay)) (s.(sustain))
        (s.(release))
  | P_solo v =>
      mkStemState (s.(muted)) v (s.(volume)) (s.(pan)) (s.(lowGain))
        (s.(midGain)) (s.(highGain)) (s.(reverbEnabled)) (s.(reverbMix))
        (s.(delayEnabled)) (s.(delayTime)) (s.(delayFeedback)) (s.(delayMix))
        (s.(distortionEnabled)) (s.(distortionAmount)) (s.(pitchShift))
        (s.(envelopeEnabled)) (s.(attack)) (s.(decay)) (s.(sustain))
        (s.(release))
  | P_volume v =>
      mkStemState (s.(muted)) (s.(solo)) v (s.(pan)) (s.(lowGain))
        (s.(midGain)) (s.(highGain)) (s.(reverbEnabled)) (s.(reverbMix))
        (s.(delayEnabled)) (s.(delayTime)) (s.(delayFeedback)) (s.(delayMix))
        (s.(distortionEnabled)) (s.(distortionAmount)) (s.(pitchShift))
        (s.(envelopeEnabled)) (s.(attack)) (s.(decay)) (s.(sustain))
        (s.(release))
  | P_pan v =>
      mkStemState (s.(muted)) (s.(solo)) (s.(volume)) v (s.(lowGain))
        (s.(midGain)) (s.(highGain)) (s.(reverbEnabled)) (s.(reverbMix))
        (s.(delayEnabled)) (s.(delayTime)) (s.(delayFeedback)) (s.(delayMix))
        (s.(distortionEnabled)) (s.(distortionAmount)) (s.(pitchShift))
        (s.(envelopeEnabled)) (s.(attack)) (s.(decay)) (s.(sustain))
        (s.(release))
  | P_lowGain v =>
      mkStemState (s.(muted)) (s.(solo)) (s.(volume)) (s.(pan)) v
        (s.(midGain)) (s.(highGain)) (s.(reverbEnabled)) (s.(reverbMix))
        (s.(delayEnabled)) (s.(delayTime)) (s.(delayFeedback)) (s.(delayMix))
        (s.(distortionEnabled)) (s.(distortionAmount)) (s.(pitchShift))
        (s.(envelopeEnabled)) (s.(attack)) (s.(decay)) (s.(sustain))
        (s.(release))
  | P_midGain v =>
      mkStemState (s.(muted)) (s.(solo)) (s.(volume)) (s.(pan)) (s.(lowGain))
        v (s.(highGain)) (s.(reverbEnabled)) (s.(reverbMix))
        (s.(delayEnabled)) (s.(delayTime)) (s.(delayFeedback)) (s.(delayMix))
        (s.(distortionEnabled)) (s.(distortionAmount)) (s.(pitchShift))
        (s.(envelopeEnabled)) (s.(attack)) (s.(decay)) (s.(sustain))
        (s.(release))
  | P_highGain v =>
      mkStemState (s.(muted)) (s.(solo)) (s.(volume)) (s.(pan)) (s.(lowGain))
        (s.(midGain)) v (s.(reverbEnabled)) (s.(reverbMix)) (s.(delayEnabled))
        (s.(delayTime)) (s.(delayFeedback)) (s.(delayMix))
        (s.(distortionEnabled)) (s.(distortionAmount)) (s.(pitchShift))
        (s.(envelopeEnabled)) (s.(attack)) (s.(decay)) (s.(sustain))
        (s.(release))
  | P_reverbEnabled v =>
      mkStemState (s.(muted)) (s.(solo)) (s.(volume)) (s.(pan)) (s.(lowGain))
        (s.(midGain)) (s.(highGain)) v (s.(reverbMix)) (s.(delayEnabled))
        (s.(delayTime)) (s.(delayFeedback)) (s.(delayMix))
        (s.(distortionEnabled)) (s.(distortionAmount)) (s.(pitchShift))
        (s.(envelopeEnabled)) (s.(attack)) (s.(decay)) (s.(sustain))
        (s.(release))
  | P_reverbMix v =>
      mkStemState (s.(muted)) (s.(solo)) (s.(volume)) (s.(pan)) (s.(lowGain))
        (s.(midGain)) (s.(highGain)) (s.(reverbEnabled)) v (s.(delayEnabled))
        (s.(delayTime)) (s.(delayFeedback)) (s.(delayMix))
        (s.(distortionEnabled)) (s.(distortionAmount)) (s.(pitchShift))
        (s.(envelopeEnabled)) (s.(attack)) (s.(decay)) (s.(sustain))
        (s.(release))
  | P_delayEnabled v =>
      mkStemState (s.(muted)) (s.(solo)) (s.(volume)) (s.(pan)) (s.(lowGain))
        (s.(midGain)) (s.(highGain)) (s.(reverbEnabled)) (s.(reverbMix)) v
        (s.(delayTime)) (s.(delayFeedback)) (s.(delayMix))
        (s.(distortionEnabled)) (s.(distortionAmount)) (s.(pitchShift))
        (s.(envelopeEnabled)) (s.(attack)) (s.(decay)) (s.(sustain))
        (s.(release))
  | P_delayTime v =>
      mkStemState (s.(muted)) (s.(solo)) (s.(volume)) (s.(pan)) (s.(lowGain))
        (s.(midGain)) (s.(highGain)) (s.(reverbEnabled)) (s.(reverbMix))
        (s.(delayEnabled)) v (s.(delayFeedback)) (s.(delayMix))
        (s.(distortionEnabled)) (s.(distortionAmount)) (s.(pitchShift))
        (s.(envelopeEnabled)) (s.(attack)) (s.(decay)) (s.(sustain))
        (s.(release))
  | P_delayFeedback v =>
      mkStemState (s.(muted)) (s.(solo)) (s.(volume)) (s.(pan)) (s.(lowGain))
        (s.(midGain)) (s.(highGain)) (s.(reverbEnabled)) (s.(reverbMix))
        (s.(delayEnabled)) (s.(delayTime)) v (s.(delayMix))
        (s.(distortionEnabled)) (s.(distortionAmount)) (s.(pitchShift))
        (s.(envelopeEnabled)) (s.(attack)) (s.(decay)) (s.(sustain))
        (s.(release))
  | P_delayMix v =>
      mkStemState (s.(muted)) (s.(solo)) (s.(volume)) (s.(pan)) (s.(lowGain))
        (s.(midGain)) (s.(highGain)) (s.(reverbEnabled)) (s.(reverbMix))
        (s.(delayEnabled)) (s.(delayTime)) (s.(delayFeedback)) v
        (s.(distortionEnabled)) (s.(distortionAmount)) (s.(pitchShift))
        (s.(envelopeEnabled)) (s.(attack)) (s.(decay)) (s.(sustain))
        (s.(release))
  | P_distortionEnabled v =>
      mkStemState (s.(muted)) (s.(solo)) (s.(volume)) (s.(pan)) (s.(lowGain))
        (s.(midGain)) (s.(highGain)) (s.(reverbEnabled)) (s.(reverbMix))
        (s.(delayEnabled)) (s.(delayTime)) (s.(delayFeedback)) (s.(delayMix))
        v (s.(distortionAmount)) (s.(pitchShift)) (s.(envelopeEnabled))
        (s.(attack)) (s.(decay)) (s.(sustain)) (s.(release))
  | P_distortionAmount v =>
      mkStemState (s.(muted)) (s.(solo)) (s.(volume)) (s.(pan)) (s.(lowGain))
        (s.(midGain)) (s.(highGain)) (s.(reverbEnabled)) (s.(reverbMix))
        (s.(delayEnabled)) (s.(delayTime)) (s.(delayFeedback)) (s.(delayMix))
        (s.(distortionEnabled)) v (s.(pitchShift)) (s.(envelopeEnabled))
        (s.(attack)) (s.(decay)) (s.(sustain)) (s.(release))
  | P_pitchShift v =>
      mkStemState (s.(muted)) (s.(solo)) (s.(volume)) (s.(pan)) (s.(lowGain))
        (s.(midGain)) (s.(highGain)) (s.(reverbEnabled)) (s.(reverbMix))
        (s.(delayEnabled)) (s.(delayTime)) (s.(delayFeedback)) (s.(delayMix))
        (s.(distortionEnabled)) (s.(distortionAmount)) v (s.(envelopeEnabled))
        (s.(attack)) (s.(decay)) (s.(sustain)) (s.(release))
  | P_envelopeEnabled v =>
      mkStemState (s.(muted)) (s.(solo)) (s.(volume)) (s.(pan)) (s.(lowGain))
        (s.(midGain)) (s.(highGain)) (s.(reverbEnabled)) (s.(reverbMix))
        (s.(delayEnabled)) (s.(delayTime)) (s.(delayFeedback)) (s.(delayMix))
        (s.(distortionEnabled)) (s.(distortionAmount)) (s.(pitchShift)) v
        (s.(attack)) (s.(decay)) (s.(sustain)) (s.(release))
  | P_attack v =>
      mkStemState (s.(muted)) (s.(solo)) (s.(volume)) (s.(pan)) (s.(lowGain))
        (s.(midGain)) (s.(highGain)) (s.(reverbEnabled)) (s.(reverbMix))
        (s.(delayEnabled)) (s.(delayTime)) (s.(delayFeedback)) (s.(delayMix))
        (s.(distortionEnabled)) (s.(distortionAmount)) (s.(pitchShift))
        (s.(envelopeEnabled)) v (s.(decay)) (s.(sustain)) (s.(release))
  | P_decay v =>
      mkStemState (s.(muted)) (s.(solo)) (s.(volume)) (s.(pan)) (s.(lowGain))
        (s.(midGain)) (s.(highGain)) (s.(reverbEnabled)) (s.(reverbMix))
        (s.(delayEnabled)) (s.(delayTime)) (s.(delayFeedback)) (s.(delayMix))
        (s.(distortionEnabled)) (s.(distortionAmount)) (s.(pitchShift))
        (s.(envelopeEnabled)) (s.(attack)) v (s.(sustain)) (s.(release))
  | P_sustain v =>
      mkStemState (s.(muted)) (s.(solo)) (s.(volume)) (s.(pan)) (s.(lowGain))
        (s.(midGain)) (s.(highGain)) (s.(reverbEnabled)) (s.(reverbMix))
        (s.(delayEnabled)) (s.(delayTime)) (s.(delayFeedback)) (s.(delayMix))
        (s.(distortionEnabled)) (s.(distortionAmount)) (s.(pitchShift))
        (s.(envelopeEnabled)) (s.(attack)) (s.(decay)) v (s.(release))
  | P_release v =>
      mkStemState (s.(muted)) (s.(solo)) (s.(volume)) (s.(pan)) (s.(lowGain))
        (s.(midGain)) (s.(highGain)) (s.(reverbEnabled)) (s.(reverbMix))
        (s.(delayEnabled)) (s.(delayTime)) (s.(delayFeedback)) (s.(delayMix))
        (s.(distortionEnabled)) (s.(distortionAmount)) (s.(pitchShift))
        (s.(envelopeEnabled)) (s.(attack)) (s.(decay)) (s.(sustain)) v
  end.

(** [stemStates[id]] read where no entry exists: every flag of [undefined]
    is falsy.  The numeric fields of such an entry are never pushed to a
    node, because a stem without state has no player either. *)
Definition undefinedState : StemState :=
  mkStemState false false 0 0 0 0 0 false 0 false 0 0 0 false 0 0 false
    0 0 0 0.

(** The entry [initializeStems] stores for every stem. *)
Definition initialState : StemState := {|
  muted := false; solo := false; volume := 0; pan := 0;
  lowGain := 0; midGain := 0; highGain := 0;
  reverbEnabled := false; reverbMix := 0.35;
  delayEnabled := false; delayTime := 0.25; delayFeedback := 0.4;
  delayMix := 0.25;
  distortionEnabled := false; distortionAmount := 0.25;
  pitchShift := 0;
  envelopeEnabled := false; attack := 0.01; decay := 0.1; sustain := 1;
  release := 0.5
|}.

(** The Tone.js objects of one stem ([StemPlayerRef]; the fields are the
    source's [player], [volume], [eq], ... under a [stem_] prefix), with
    the connections made for the stem. *)
Record StemPlayerRef := mkStemPlayerRef {
  stem_player : PlayerNode;
  stem_volume : VolumeNode;
  stem_eq : EQ3Node;
  stem_reverb : ReverbNode;
  stem_delay : DelayNode;
  stem_distortion : DistortionNode;
  stem_envelope : EnvelopeNode;
  stem_pitchShift : PitchShiftNode;
  stem_connections : Graph
}.

Definition with_player (f : PlayerNode → PlayerNode) (r : StemPlayerRef) :=
  mkStemPlayerRef (f (stem_player r)) (stem_volume r) (stem_eq r)
    (stem_reverb r) (stem_delay r) (stem_distortion r) (stem_envelope r)
    (stem_pitchShift r) (stem_connections r).
Definition with_volume (f : VolumeNode → VolumeNode) (r : StemPlayerRef) :=
  mkStemPlayerRef (stem_player r) (f (stem_volume r)) (stem_eq r)
    (stem_reverb r) (stem_delay r) (stem_distortion r) (stem_envelope r)
    (stem_pitchShift r) (stem_connections r).
Definition with_eq (f : EQ3Node → EQ3Node) (r : StemPlayerRef) :=
  mkStemPlayerRef (stem_player r) (stem_volume r) (f (stem_eq r))
    (stem_reverb r) (stem_delay r) (stem_distortion r) (stem_envelope r)
    (stem_pitchShift r) (stem_connections r).
Definition with_reverb (f : ReverbNode → ReverbNode) (r : StemPlayerRef) :=
  mkStemPlayerRef (stem_player r) (stem_volume r) (stem_eq r)
    (f (stem_reverb r)) (stem_delay r) (stem_distortion r) (stem_envelope r)
    (stem_pitchShift r) (stem_connections r).
Definition with_delay (f : DelayNode → DelayNode) (r : StemPlayerRef) :=
  mkStemPlayerRef (stem_player r) (stem_volume r) (stem_eq r)
    (stem_reverb r) (f (stem_delay r)) (stem_distortion r) (stem_envelope r)
    (stem_pitchShift r) (stem_connections r).
Definition with_distortion (f : DistortionNode → DistortionNode)
    (r : StemPlayerRef) :=
  mkStemPlayerRef (stem_player r) (stem_volume r) (stem_eq r)
    (stem_reverb r) (stem_delay r) (f (stem_distortion r)) (stem_envelope r)
    (stem_pitchShift r) (stem_connections r).
Definition with_envelope (f : EnvelopeNode → EnvelopeNode)
    (r : StemPlayerRef) :=
  mkStemPlayerRef (stem_player r) (stem_volume r) (stem_eq r)
    (stem_reverb r) (stem_delay r) (stem_distortion r) (f (stem_envelope r))
    (stem_pitchShift r) (stem_connections r).
Definition with_pitchShift (f : PitchShiftNode → PitchShiftNode)
    (r : StemPlayerRef) :=
  mkStemPlayerRef (stem_player r) (stem_volume r) (stem_eq r)
    (stem_reverb r) (stem_delay r) (stem_distortion r) (stem_envelope r)
    (f (stem_pitchShift r)) (stem_connections r).

(** Assignments to single node parameters. *)
Definition set_mute (b : bool) : StemPlayerRef → StemPlayerRef :=
  with_volume (setMute b).
Definition set_volume (x : Q) : StemPlayerRef → StemPlayerRef :=
  with_volume (setVolumeValue x).
Definition set_reverb_wet (x : Q) : StemPlayerRef → StemPlayerRef :=
  with_reverb (λ n, mkReverb (reverb_decay n) x).
Definition set_delay_wet (x : Q) : StemPlayerRef → StemPlayerRef :=
  with_delay (λ n, mkDelay (delay_delayTime n) (delay_feedback n) x).
Definition set_delay_time (x : Q) : StemPlayerRef → StemPlayerRef :=
  with_delay (λ n, mkDelay x (delay_feedback n) (delay_wet n)).
Definition set_delay_feedback (x : Q) : StemPlayerRef → StemPlayerRef :=
  with_delay (λ n, mkDelay (delay_delayTime n) x (delay_wet n)).
Definition set_distortion_wet (x : Q) : StemPlayerRef → StemPlayerRef :=
  with_distortion (λ n, mkDistortion (dist_distortion n) x).
Definition set_distortion (x : Q) : StemPlayerRef → StemPlayerRef :=
  with_distortion (λ n, mkDistortion x (dist_wet n)).
Definition set_player_state (st : PlayerState) :
    StemPlayerRef → StemPlayerRef :=
  with_player (λ p, mkPlayer (player_loop p) (player_playbackRate p) st).
Definition set_gate (g : option Q) : StemPlayerRef → StemPlayerRef :=
  with_envelope (λ e, mkEnvelope (env_attack e) (env_decay e)
                        (env_sustain e) (env_release e) g).

(** Runs a block of graph statements in program order. *)
Definition wire (stmts : list (Graph → Graph)) (g : Graph) : Graph :=
  foldl (λ g stmt, stmt g) g stmts.

(** The connections [initializeStems] makes for one stem. *)
Definition stemChain : Graph :=
  wire [ connect Player PitchShift;
         connect PitchShift Volume;
         connect Volume Panner;
         connect Panner EQ3;
         (* Effects are connected in parallel with dry signal *)
         connect EQ3 Reverb;
         connect EQ3 FeedbackDelay;
         connect EQ3 Distortion;
         connect EQ3 AmplitudeEnvelope;
         (* All effects connect to destination *)
         toDestination Reverb;
         toDestination FeedbackDelay;
         toDestination Distortion;
         toDestination AmplitudeEnvelope;
         toDestination EQ3 (* Dry signal *) ] [].

(** The nodes [initializeStems] creates for one stem. *)
Definition newStemPlayerRef : StemPlayerRef := {|
  stem_player := mkPlayer true 1 Stopped;
  stem_volume := mkVolume (Some 0) 0;
  stem_eq := mkEQ3 0 0 0;
  stem_reverb := mkReverb 2.6 0;
  stem_delay := mkDelay 0.25 0.4 0;
  stem_distortion := mkDistortion 0.25 0;
  stem_envelope := mkEnvelope 0.01 0.1 1 0.5 None;
  stem_pitchShift := mkPitchShift 0;
  stem_connections := stemChain
|}.

(** The component: its React state, the [stemPlayersRef] object, and the
    audio clock that [Tone.now()] reads.  [stemOrder] is the order in which
    [Object.entries(stemPlayersRef.current)] lists the stems: the order in
    which their ids were first stored (stem ids are the database's [cuid]
    strings, none of them an array index).  [failedStems] holds the ids of
    the stems whose [onerror] fired: the buffer of such a player is never
    loaded, and [start] throws on it. *)
Record Session := mkSession {
  isPlaying : bool;
  currentTime : Q;
  isLoading : bool;
  stemStates : gmap string StemState;
  stemPlayersRef : gmap string StemPlayerRef;
  clock : Q;
  stemOrder : list string;
  failedStems : list string
}.

(** [initializeStems] at mount, for the stems of the group. *)
Definition initializeStems (stems : list Stem) (t0 : Q) : Session := {|
  isPlaying := false;
  currentTime := 0;
  isLoading := true;
  stemStates := foldl (λ m stem, <[id stem := initialState]> m) ∅ stems;
  stemPlayersRef :=
    foldl (λ m stem, <[id stem := newStemPlayerRef]> m) ∅ stems;
  clock := t0;
  stemOrder :=
    foldl (λ ids stem,
             if bool_decide (id stem ∈ ids) then ids else ids ++ [id stem])
          [] stems;
  failedStems := []
|}.

(** The last [onload]/[onerror] callback: [setIsLoading(false)]. *)
Definition allStemsLoaded (s : Session) : Session :=
  mkSession (isPlaying s) (currentTime s) false (stemStates s)
    (stemPlayersRef s) (clock s) (stemOrder s) (failedStems s).

(** The [onerror] callback of the player of [stemId]: the player stays in
    [stemPlayersRef], without a buffer. *)
Definition stemLoadFails (stemId : string) (s : Session) : Session :=
  mkSession (isPlaying s) (currentTime s) (isLoading s) (stemStates s)
    (stemPlayersRef s) (clock s) (stemOrder s) (stemId :: failedStems s).

(** [Object.values(states).some(s => s.solo)]. *)
Definition hasSolo (states : gmap string StemState) : bool :=
  bool_decide (map_Exists (λ _ st, solo st = true) states).

(** The value both [togglePlay] and the ['solo'] case assign to
    [volume.mute]; [state] is [states[id]], possibly [undefined]:
    [hasSolo ? (state?.solo ? (state?.muted || false) : true)
             : (state?.muted || false)]. *)
Definition soloMute (anySolo : bool) (state : option StemState) : bool :=
  if anySolo then
    if from_option solo false state
    then from_option muted false state
    else true
  else from_option muted false state.

Section Operations.

(** Time that passes on the audio clock between two reads of it. *)
Variable tick : Q.

(** [Tone.now()]: the current clock value; the clock moves on. *)
Definition Tone_now (s : Session) : Q * Session :=
  (clock s,
   mkSession (isPlaying s) (currentTime s) (isLoading s) (stemStates s)
     (stemPlayersRef s) (clock s + tick) (stemOrder s) (failedStems s)).

(** Body of the [forEach] of the start branch, for one stem. *)
Definition startStem (now : Q) (anySolo : bool) (state : option StemState)
    (stem : StemPlayerRef) : StemPlayerRef :=
  (* Always start the player for perfect sync *)
  let stem := set_player_state (Started (Some now) 0) stem in
  let stem := set_mute (soloMute anySolo state) stem in
  if from_option envelopeEnabled false state
     && negb (vol_mute (stem_volume stem))
  then set_gate (Some now) stem
  else stem.

(** Body of the [forEach] of the stop branch.  The state is looked up under
    [stem.player.name], which for a [Tone.Player] is the string "Player". *)
Definition stopStem (states : gmap string StemState)
    (stem : StemPlayerRef) : StemPlayerRef :=
  let stem := set_player_state Stopped stem in
  if from_option envelopeEnabled false (states !! "Player")
  then set_gate None stem
  else stem.

(** The [forEach] of the start branch over the entries [ids].
    [stem.player.start(now)] throws when the buffer of the player is not
    loaded; the exception ends the [forEach] with the stems before it
    started and the others untouched.  The result tells whether the loop ran
    to its end. *)
Fixpoint startEach (now : Q) (anySolo : bool)
    (states : gmap string StemState) (failed : list string)
    (ids : list string) (refs : gmap string StemPlayerRef)
    : gmap string StemPlayerRef * bool :=
  match ids with
  | [] => (refs, true)
  | stemId :: rest =>
      match refs !! stemId with
      | None => startEach now anySolo states failed rest refs
      | Some stem =>
          if bool_decide (stemId ∈ failed) then (refs, false)
          else
            startEach now anySolo states failed rest
              (<[stemId := startStem now anySolo (states !! stemId) stem]>
                 refs)
      end
  end.

(** [togglePlay].  [contextStarts] tells whether [await Tone.start()]
    resolves; when it rejects, or when a [start] throws, the [catch] block
    runs. *)
Definition togglePlay (contextStarts : bool) (s : Session) : Session :=
  if isLoading s then s
  else if negb contextStarts then
    mkSession false (currentTime s) (isLoading s) (stemStates s)
      (stemPlayersRef s) (clock s) (stemOrder s) (failedStems s)
  else if isPlaying s then
    mkSession false 0 (isLoading s) (stemStates s)
      (stopStem (stemStates s) <$> stemPlayersRef s) (clock s)
      (stemOrder s) (failedStems s)
  else
    (* Start all players simultaneously (even muted ones for sync) *)
    let '(now, s) := Tone_now s in
    let anySolo := hasSolo (stemStates s) in
    let '(refs, completed) :=
      startEach now anySolo (stemStates s) (failedStems s) (stemOrder s)
        (stemPlayersRef s) in
    (* [setIsPlaying(true)], or the [setIsPlaying(false)] of the [catch] *)
    mkSession completed (currentTime s) (isLoading s) (stemStates s) refs
      (clock s) (stemOrder s) (failedStems s).

(** The [switch (param)] of [updateStemParam], for a stem that has a
    player.  [states] is the [stemStates] of the render the handler closes
    over, i.e. the state before this update. *)
Definition applyParam (stemId : string) (p : Param)
    (states : gmap string StemState) (stem : StemPlayerRef)
    (refs : gmap string StemPlayerRef) : gmap string StemPlayerRef :=
  let put (f : StemPlayerRef → StemPlayerRef) := <[stemId := f stem]> refs in
  match p with
  | P_volume v => put (set_volume v)
  | P_muted v => put (set_mute v)
  | P_solo v =>
      let newStates :=
        <[stemId := setField (P_solo v)
                      (default undefinedState (states !! stemId))]> states in
      let anySolo := hasSolo newStates in
      map_imap (λ i s, Some (set_mute (soloMute anySolo (newStates !! i)) s))
               refs
  | P_lowGain v =>
      put (with_eq (λ e, mkEQ3 v (eq_mid e) (eq_high e)))
  | P_midGain v =>
      put (with_eq (λ e, mkEQ3 (eq_low e) v (eq_high e)))
  | P_highGain v =>
      put (with_eq (λ e, mkEQ3 (eq_low e) (eq_mid e) v))
  | P_reverbEnabled v =>
      match states !! stemId with
      | Some st => put (set_reverb_wet (if v then reverbMix st else 0))
      | None => refs (* TypeError: the handler stops here *)
      end
  | P_reverbMix v =>
      match states !! stemId with
      | Some st => if reverbEnabled st then put (set_reverb_wet v) else refs
      | None => refs
      end
  | P_delayEnabled v =>
      match states !! stemId with
      | Some st => put (set_delay_wet (if v then delayMix st else 0))
      | None => refs
      end
  | P_delayTime v => put (set_delay_time v)
  | P_delayFeedback v => put (set_delay_feedback v)
  | P_delayMix v =>
      match states !! stemId with
      | Some st => if delayEnabled st then put (set_delay_wet v) else refs
      | None => refs
      end
  | P_distortionEnabled v => put (set_distortion_wet (if v then 0.5 else 0))
  | P_distortionAmount v => put (set_distortion v)
  | P_pitchShift v => put (with_pitchShift (λ _, mkPitchShift v))
  | P_attack v =>
      put (with_envelope (λ e, mkEnvelope v (env_decay e) (env_sustain e)
                                 (env_release e) (env_gate e)))
  | P_decay v =>
      put (with_envelope (λ e, mkEnvelope (env_attack e) v (env_sustain e)
                                 (env_release e) (env_gate e)))
  | P_sustain v =>
      put (with_envelope (λ e, mkEnvelope (env_attack e) (env_decay e) v
                                 (env_release e) (env_gate e)))
  | P_release v =>
      put (with_envelope (λ e, mkEnvelope (env_attack e) (env_decay e)
                                 (env_sustain e) v (env_gate e)))
  | P_pan _ | P_envelopeEnabled _ => refs (* no case in the switch *)
  end.

(** [updateStemParam(stemId, param, value)]: the state update, then the
    push to the stem's nodes when the stem has a player. *)
Definition updateStemParam (stemId : string) (p : Param) (s : Session)
    : Session :=
  let prev := stemStates s in
  let next :=
    <[stemId := setField p (default undefinedState (prev !! stemId))]> prev in
  let refs :=
    match stemPlayersRef s !! stemId with
    | None => stemPlayersRef s
    | Some stem => applyParam stemId p prev stem (stemPlayersRef s)
    end in
  mkSession (isPlaying s) (currentTime s) (isLoading s) next refs (clock s)
    (stemOrder s) (failedStems s).

(** The Mute and Solo buttons of a stem lane: [state] is
    [stemStates[stem.id] || {}]. *)
Definition toggleMute (stemId : string) (s : Session) : Session :=
  let state := default undefinedState (stemStates s !! stemId) in
  updateStemParam stemId (P_muted (negb (muted state))) s.

Definition toggleSolo (stemId : string) (s : Session) : Session :=
  let state := default undefinedState (stemStates s !! stemId) in
  updateStemParam stemId (P_solo (negb (solo state))) s.

End Operations.

(** A voice is audible when its volume node is not muted. *)
Definition audible (stem : StemPlayerRef) : bool :=
  negb (vol_mute (stem_volume stem)).

(** What can happen to a mounted session. *)
Inductive Action :=
  | AllStemsLoaded
  | StemLoadFails (stemId : string)
  | TogglePlay (contextStarts : bool)
  | UpdateStemParam (stemId : string) (p : Param).

Definition act (tick : Q) (s : Session) (a : Action) : Session :=
  match a with
  | AllStemsLoaded => allStemsLoaded s
  | StemLoadFails stemId => stemLoadFails stemId s
  | TogglePlay ok => togglePlay tick ok s
  | UpdateStemParam stemId p => updateStemParam stemId p s
  end.

(** The session reached from mount by a sequence of actions. *)
Definition sessionAfter (tick : Q) (stems : list Stem) (t0 : Q)
    (actions : list Action) : Session :=
  foldl (act tick) (initializeStems stems t0) actions.

(** Solo precedence, as the specification words it. *)
Definition soloPrecedence (s : Session) : Prop :=
  ∀ i stem st,
    stemPlayersRef s !! i = Some stem → stemStates s !! i = Some st →
    audible stem =
      if hasSolo (stemStates s) then solo st && negb (muted st)
      else negb (muted st).

(** Every stem with a player has a state entry. *)
Definition statesCoverPlayers (s : Session) : Prop :=
  ∀ i, is_Some (stemPlayersRef s !! i) → is_Some (stemStates s !! i).

(** A disabled effect contributes nothing: its wet value is 0. *)
Definition disabledIsDry (s : Session) : Prop :=
  ∀ i stem st,
    stemPlayersRef s !! i = Some stem → stemStates s !! i = Some st →
    (reverbEnabled st = false → reverb_wet (stem_reverb stem) = 0) ∧
    (delayEnabled st = false → delay_wet (stem_delay stem) = 0) ∧
    (distortionEnabled st = false → dist_wet (stem_distortion stem) = 0).

(** The wet values applied to the effect nodes of stem [i]. *)
Definition reverbWet (s : Session) (i : string) : option Q :=
  (λ stem, reverb_wet (stem_reverb stem)) <$> stemPlayersRef s !! i.
Definition delayWet (s : Session) (i : string) : option Q :=
  (λ stem, delay_wet (stem_delay stem)) <$> stemPlayersRef s !! i.
Definition distortionWet (s : Session) (i : string) : option Q :=
  (λ stem, dist_wet (stem_distortion stem)) <$> stemPlayersRef s !! i.

(** Two stems of a group, for the scenarios below. *)
Definition drums : Stem :=
  mkStem "A" "drums" "Drums" "drums.wav" "/uploads/drums.wav" 0.
Definition bass : Stem :=
  mkStem "B" "bass" "Bass" "bass.wav" "/uploads/bass.wav" 1.

(** The session of the two stems once both have loaded. *)
Definition duo : Session := allStemsLoaded (initializeStems [drums; bass] 0).

(** The volume node carries the gain [x]: as its value, or, while the
    node is muted, as the value that an un-mute puts back. *)
Definition volumeShown (x : Q) (v : VolumeNode) : Prop :=
  match vol_volume v with
  | Some y => y = x
  | None => vol_unmutedVolume v = x
  end.

(** The node parameters of a stem show what its state entry says. *)
Definition inSync (st : StemState) (stem : StemPlayerRef) : Prop :=
  volumeShown (volume st) (stem_volume stem) ∧
  eq_low (stem_eq stem) = lowGain st ∧
  eq_mid (stem_eq stem) = midGain st ∧
  eq_high (stem_eq stem) = highGain st ∧
  reverb_wet (stem_reverb stem)
  = (if reverbEnabled st then reverbMix st else 0) ∧
  delay_wet (stem_delay stem)
  = (if delayEnabled st then delayMix st else 0) ∧
  delay_delayTime (stem_delay stem) = delayTime st ∧
  delay_feedback (stem_delay stem) = delayFeedback st ∧
  dist_wet (stem_distortion stem)
  = (if distortionEnabled st then 0.5 else 0) ∧
  dist_distortion (stem_distortion stem) = distortionAmount st ∧
  ps_pitch (stem_pitchShift stem) = pitchShift st ∧
  env_attack (stem_envelope stem) = attack st ∧
  env_decay (stem_envelope stem) = decay st ∧
  env_sustain (stem_envelope stem) = sustain st ∧
  env_release (stem_envelope stem) = release st.

(** Two snapshots of a stem's nodes that differ at most in the transport,
    the volume node (through which the stem is muted) and the envelope
    gate. *)
Definition sameSettings (a b : StemPlayerRef) : Prop :=
  stem_eq a = stem_eq b ∧
  stem_reverb a = stem_reverb b ∧
  stem_delay a = stem_delay b ∧
  stem_distortion a = stem_distortion b ∧
  stem_pitchShift a = stem_pitchShift b ∧
  env_attack (stem_envelope a) = env_attack (stem_envelope b) ∧
  env_decay (stem_envelope a) = env_decay (stem_envelope b) ∧
  env_sustain (stem_envelope a) = env_sustain (stem_envelope b) ∧
  env_release (stem_envelope a) = env_release (stem_envelope b).

(** [inSync] for every stem of a session. *)
Definition synced (s : Session) : Prop :=
  ∀ i stem st,
    stemPlayersRef s !! i = Some stem → stemStates s !! i = Some st →
    inSync st stem.

(** A voice that the solo rule does not silence and whose mute flag is off
    is heard. *)
Definition unmutedIsHeard (s : Session) : Prop :=
  ∀ i stem st,
    stemPlayersRef s !! i = Some stem → stemStates s !! i = Some st →
    hasSolo (stemStates s) = false ∨ solo st = true →
    muted st = false → audible stem = true.

(** [Object.entries(stemPlayersRef.current)] lists every stem that has a
    player, once. *)
Definition entriesListed (s : Session) : Prop :=
  NoDup (stemOrder s) ∧
  ∀ i, is_Some (stemPlayersRef s !! i) → i ∈ stemOrder s.

Definition isSoloParam (p : Param) : bool :=
  match p with P_solo _ => true | _ => false end.

(** An action of the page: the stem lanes only pass the ids of stems. *)
Definition onKnownStem (s : Session) (a : Action) : Prop :=
  match a with
  | UpdateStemParam stemId _ => is_Some (stemPlayersRef s !! stemId)
  | _ => True
  end.

(** The sessions the page can reach: from mount, by actions on stems that
    have a player. *)
Inductive Reachable (tick : Q) (stems : list Stem) (t0 : Q)
    : Session → Prop :=
  | reach_mount : Reachable tick stems t0 (initializeStems stems t0)
  | reach_act s a :
      Reachable tick stems t0 s → onKnownStem s a →
      Reachable tick stems t0 (act tick s a).

(** The two-stem session in which the file of stem [stemId] could not be
    fetched: its [onerror] fired, the other stem loaded. *)
Definition duoWithout (stemId : string) : Session :=
  allStemsLoaded (stemLoadFails stemId (initializeStems [drums; bass] 0)).

End MultiTrackPlayer.

(** ** The single-track player, [TrackCard.tsx] *)

Module TrackCard.
Import Tone.

(** *** Playback rate and pitch compensation *)

Module Pitch.
Local Open Scope R_scope.

(** [Math.log2]. *)
Definition log2 (x : R) : R := ln x / ln 2.

(** The two React states the effect depends on, and the parameters it
    writes; a ref is [None] until [initAudio] has created its node. *)
Record Card := mkCard {
  playbackRate : R;
  pitchShift : R;
  player_rate : option R;     (* playerRef.current.playbackRate *)
  shifter_pitch : option R    (* pitchShifterRef.current.pitch *)
}.

(** The effect with dependencies [[playbackRate, pitchShift]]. *)
Definition pitchEffect (c : Card) : Card :=
  let rate' :=
    match player_rate c with
    | Some _ => Some (playbackRate c)
    | None => None
    end in
  let pitch' :=
    match shifter_pitch c with
    | Some _ =>
        let pitchCompensation := -12 * log2 (playbackRate c) in
        let totalPitchShift := pitchShift c + pitchCompensation in
        Some totalPitchShift
    | None => None
    end in
  mkCard (playbackRate c) (pitchShift c) rate' pitch'.

(** The speed and pitch sliders: the state setter, then the effect. *)
Definition setPlaybackRate (r : R) (c : Card) : Card :=
  pitchEffect (mkCard r (pitchShift c) (player_rate c) (shifter_pitch c)).

Definition setPitchShift (p : R) (c : Card) : Card :=
  pitchEffect (mkCard (playbackRate c) p (player_rate c) (shifter_pitch c)).

(** The component after mount: rate 1, no shift, nodes created. *)
Definition mounted : Card := pitchEffect (mkCard 1 0 (Some 1) (Some 0)).

(** Semitones by which the listener hears the track shifted: resampling
    at rate [r] raises it by [12 * log2 r], the pitch-shift unit adds its
    own value. *)
Definition perceivedShift (c : Card) : option R :=
  match player_rate c, shifter_pitch c with
  | Some r, Some s => Some (12 * log2 r + s)
  | _, _ => None
  end.
End Pitch.

(** *** Mastering presets *)

Record Offsets := mkOffsets { low : Z; mid : Z; high : Z }.

(** The [presetValues] table; [None] is the [undefined] of a missing key.
    The selection only ever holds the five names of the table, which the
    preset buttons put there. *)
Definition presetValues (preset : string) : option Offsets :=
  if String.eqb preset "warm" then Some (mkOffsets 3 (-1) (-2))
  else if String.eqb preset "bright" then Some (mkOffsets (-2) 1 4)
  else if String.eqb preset "punchy" then Some (mkOffsets 4 2 1)
  else if String.eqb preset "airy" then Some (mkOffsets (-1) (-2) 5)
  else if String.eqb preset "balanced" then Some (mkOffsets 0 0 0)
  else None.

(** The five preset buttons. *)
Inductive Preset := Warm | Bright | Punchy | Airy | Balanced.

Definition presetName (p : Preset) : string :=
  match p with
  | Warm => "warm" | Bright => "bright" | Punchy => "punchy"
  | Airy => "airy" | Balanced => "balanced"
  end.

(** The running totals of the [forEach] over the selection. *)
Definition addPreset (totals : Z * Z * Z) (preset : string) : Z * Z * Z :=
  let '(totalLow, totalMid, totalHigh) := totals in
  match presetValues preset with
  | Some values =>
      ((totalLow + low values)%Z, (totalMid + mid values)%Z,
       (totalHigh + high values)%Z)
  | None => totals
  end.

(** The effect with dependency [[masteringPresets]]; it returns early when
    the EQ has not been created. *)
Definition masteringEffect (masteringPresets : list string)
    (eq3Ref : option EQ3Node) : option EQ3Node :=
  match eq3Ref with
  | None => None
  | Some _ =>
      if (length masteringPresets =? 0)%nat then Some (mkEQ3 0 0 0)
      else
        let '(totalLow, totalMid, totalHigh) :=
          foldl addPreset (0, 0, 0)%Z masteringPresets in
        let count := inject_Z (Z.of_nat (length masteringPresets)) in
        Some (mkEQ3 (inject_Z totalLow / count) (inject_Z totalMid / count)
                (inject_Z totalHigh / count))
  end.

(** [prev.includes(q) ? prev.filter(p => p !== q) : [...prev, q]]. *)
Definition togglePreset (q : string) (prev : list string) : list string :=
  if existsb (String.eqb q) prev
  then List.filter (λ p, negb (String.eqb p q)) prev
  else prev ++ [q].

(** Arithmetic mean of a band over a selection of presets, as the
    specification words it: the sum of the offsets over their number. *)
Definition bandMean (band : Offsets → Z) (selected : list Offsets) : Q :=
  inject_Z (fold_right Z.add 0%Z (map band selected))
  / inject_Z (Z.of_nat (length selected)).

Definition offsetsOf (p : Preset) : Offsets :=
  match p with
  | Warm => mkOffsets 3 (-1) (-2)
  | Bright => mkOffsets (-2) 1 4
  | Punchy => mkOffsets 4 2 1
  | Airy => mkOffsets (-1) (-2) 5
  | Balanced => mkOffsets 0 0 0
  end.

(** *** The effect chain *)

Record Effects := mkEffects {
  reverbEnabled : bool;
  delayEnabled : bool;
  distortionEnabled : bool;
  chorusEnabled : bool
}.

(** The connections [initAudio] makes. *)
Definition initialChain : Graph :=
  connect Player PitchShift (toDestination EQ3 (connect PitchShift EQ3 [])).

(** One [if (xEnabled && xRef.current)] block of the rebuild: connect the
    last node to the effect and make the effect the last node. *)
Definition chainThrough (enabled : bool) (effect : Node)
    (st : Graph * Node) : Graph * Node :=
  let '(g, lastNode) := st in
  if enabled then (connect lastNode effect g, effect) else (g, lastNode).

(** The effect with dependencies [[reverbEnabled, delayEnabled,
    distortionEnabled, chorusEnabled]], all refs created. *)
Definition rebuildChain (fx : Effects) (g : Graph) : Graph :=
  (* Disconnect everything first *)
  let g := disconnect EQ3 g in
  let g := disconnect Reverb g in
  let g := disconnect FeedbackDelay g in
  let g := disconnect Distortion g in
  let g := disconnect Chorus g in
  (* Start from EQ3 (mastering is always applied) *)
  let st := (g, EQ3) in
  let st := chainThrough (reverbEnabled fx) Reverb st in
  let st := chainThrough (delayEnabled fx) FeedbackDelay st in
  let st := chainThrough (distortionEnabled fx) Distortion st in
  let st := chainThrough (chorusEnabled fx) Chorus st in
  let '(g, lastNode) := st in
  (* Connect to recorder and destination *)
  toDestination lastNode (connect lastNode Recorder g).

(** The four effect buttons. *)
Inductive EffectButton := BtnReverb | BtnDelay | BtnDistortion | BtnChorus.

Definition flip (b : EffectButton) (fx : Effects) : Effects :=
  match b with
  | BtnReverb =>
      mkEffects (negb (reverbEnabled fx)) (delayEnabled fx)
        (distortionEnabled fx) (chorusEnabled fx)
  | BtnDelay =>
      mkEffects (reverbEnabled fx) (negb (delayEnabled fx))
        (distortionEnabled fx) (chorusEnabled fx)
  | BtnDistortion =>
      mkEffects (reverbEnabled fx) (delayEnabled fx)
        (negb (distortionEnabled fx)) (chorusEnabled fx)
  | BtnChorus =>
      mkEffects (reverbEnabled fx) (delayEnabled fx) (distortionEnabled fx)
        (negb (chorusEnabled fx))
  end.

(** A click on an effect button: the flag flips, the rebuild effect runs. *)
Definition toggleEffect (b : EffectButton) (st : Effects * Graph)
    : Effects * Graph :=
  let fx := flip b st.1 in (fx, rebuildChain fx st.2).

(** The component after mount: no effect enabled, the rebuild effect has
    run once on the connections of [initAudio]. *)
Definition mountedChain : Effects * Graph :=
  let fx := mkEffects false false false false in
  (fx, rebuildChain fx initialChain).

(** The nodes the specification calls optional effects, with their flags. *)
Definition enabledIn (fx : Effects) (n : Node) : bool :=
  match n with
  | Reverb => reverbEnabled fx
  | FeedbackDelay => delayEnabled fx
  | Distortion => distortionEnabled fx
  | Chorus => chorusEnabled fx
  | _ => false
  end.

(** Parallel-then-sum, as the specification words it: the mastering EQ
    feeds every enabled effect and the output directly, and every enabled
    effect feeds the output. *)
Definition parallelThenSum (fx : Effects) (g : Graph) : Prop :=
  (EQ3, Destination) ∈ g ∧
  ∀ n, enabledIn fx n = true → (EQ3, n) ∈ g ∧ (n, Destination) ∈ g.

(** The enabled effects in the fixed order of the rebuild. *)
Definition enabledEffects (fx : Effects) : list Node :=
  List.filter (enabledIn fx) [Reverb; FeedbackDelay; Distortion; Chorus].

(** A serial path through [nodes] starting at [from]; the last node feeds
    the recorder and the output. *)
Fixpoint serialPath (from : Node) (nodes : list Node) : Graph :=
  match nodes with
  | [] => [(from, Recorder); (from, Destination)]
  | n :: rest => (from, n) :: serialPath n rest
  end.

(** *** Transport, seek and recording *)

(** The React state the two handlers read and write, and the two refs. *)
Record Card := mkCard {
  isPlaying : bool;
  currentTime : Q;
  duration : Q;
  playbackRate : Q;
  loopEnabled : bool;
  isRecording : bool;
  playerRef : option PlayerNode;
  recorderRef : option bool   (* [Some true] while the recorder runs *)
}.

(** What a handler does to the engine and to the page, in program order. *)
Inductive Event :=
  | PlayerStop
  | PlayerStart (time : option Q) (offset : Q)
  | SetLoop (b : bool)
  | ToneStart
  | RecorderStart
  | RecorderStop
  | Wait (ms : Q)
  | LoopButton
  | Download (name : string)
  | Alert (msg : string)
  | ConsoleError (msg : string).

(** The component together with the trace of the running handler: every
    statement that reaches the engine or the page appends its event and the
    component as it is right after the statement. *)
Record World := mkWorld {
  card : Card;
  trace : list (Event * Card)
}.

(** A handler either runs to its end or throws. *)
Inductive Result (A : Type) :=
  | Done (a : A) (w : World)
  | Thrown (w : World).
Arguments Done {A} a w.
Arguments Thrown {A} w.

Definition M (A : Type) : Type := World → Result A.

#[global] Instance M_ret : MRet M := λ A a w, Done a w.
#[global] Instance M_bind : MBind M := λ A B f m w,
  match m w with
  | Done a w' => f a w'
  | Thrown w' => Thrown w'
  end.

(** [try { body } catch { handler }]. *)
Definition tryCatch {A} (body handler : M A) : M A := λ w,
  match body w with
  | Done a w' => Done a w'
  | Thrown w' => handler w'
  end.

(** A statement seen from outside: the component changes by [f]. *)
Definition step (e : Event) (f : Card → Card) : M unit := λ w,
  let c := f (card w) in Done () (mkWorld c (trace w ++ [(e, c)])).

(** A statement that may throw instead. *)
Definition mayThrow (throws : bool) (e : Event) (f : Card → Card)
    : M unit :=
  if throws then Thrown else step e f.

(** A React state setter. *)
Definition setState (f : Card → Card) : M unit := λ w,
  Done () (mkWorld (f (card w)) (trace w)).

Definition when (b : bool) (m : M unit) : M unit :=
  if b then m else mret ().

Definition setIsPlaying (b : bool) (c : Card) : Card :=
  mkCard b (currentTime c) (duration c) (playbackRate c) (loopEnabled c)
    (isRecording c) (playerRef c) (recorderRef c).
Definition setCurrentTime (t : Q) (c : Card) : Card :=
  mkCard (isPlaying c) t (duration c) (playbackRate c) (loopEnabled c)
    (isRecording c) (playerRef c) (recorderRef c).
Definition setIsRecording (b : bool) (c : Card) : Card :=
  mkCard (isPlaying c) (currentTime c) (duration c) (playbackRate c)
    (loopEnabled c) b (playerRef c) (recorderRef c).
Definition setLoopEnabled (b : bool) (c : Card) : Card :=
  mkCard (isPlaying c) (currentTime c) (duration c) (playbackRate c)
    b (isRecording c) (playerRef c) (recorderRef c).
Definition onPlayer (f : PlayerNode → PlayerNode) (c : Card) : Card :=
  mkCard (isPlaying c) (currentTime c) (duration c) (playbackRate c)
    (loopEnabled c) (isRecording c) (f <$> playerRef c) (recorderRef c).
Definition onRecorder (running : bool) (c : Card) : Card :=
  mkCard (isPlaying c) (currentTime c) (duration c) (playbackRate c)
    (loopEnabled c) (isRecording c) (playerRef c)
    (const running <$> recorderRef c).

Definition player_stop (p : PlayerNode) : PlayerNode :=
  mkPlayer (player_loop p) (player_playbackRate p) Stopped.
Definition player_start (time : option Q) (offset : Q) (p : PlayerNode)
    : PlayerNode :=
  mkPlayer (player_loop p) (player_playbackRate p) (Started time offset).
Definition player_setLoop (b : bool) (p : PlayerNode) : PlayerNode :=
  mkPlayer b (player_playbackRate p) (player_state p).

(** The effect with dependency [[loopEnabled]] keeps the player's flag
    equal to the React state. *)
Definition loopEffect (c : Card) : Card :=
  onPlayer (player_setLoop (loopEnabled c)) c.

(** A click on the loop button, [setLoopEnabled(!loopEnabled)], with the
    effect that runs after the render.  The button stays enabled while a
    recording is in progress. *)
Definition clickLoop (c : Card) : Card :=
  loopEffect (setLoopEnabled (negb (loopEnabled c)) c).

(** A started player whose loop flag is off reaches the end of its buffer
    [(duration - offset) / playbackRate] seconds after its start, and is
    stopped from then on; a looping player goes on. *)
Definition endsWithin (ms : Q) (c : Card) (p : PlayerNode) : bool :=
  match player_state p with
  | Started _ offset =>
      negb (player_loop p)
      && Qle_bool ((duration c - offset) / player_playbackRate p * 1000) ms
  | Stopped => false
  end.

(** The component [ms] milliseconds after its player was last started,
    the loop flag having been what it is now all the time. *)
Definition elapse (ms : Q) (c : Card) : Card :=
  onPlayer (λ p, if endsWithin ms c p then player_stop p else p) c.

(** [!duration]: the duration is [0] until the buffer has loaded. *)
Definition noDuration (c : Card) : bool := Qeq_bool (duration c) 0.

(** [handleSeek], for a click at [clientX] on the progress bar whose
    bounding rectangle starts at [rectLeft] and is [rectWidth] wide.
    ([rectWidth] is not zero for a bar that can be clicked; the model's
    division is the exact one.) *)
Definition handleSeek (clientX rectLeft rectWidth : Q) : M unit := λ w,
  let c := card w in
  match playerRef c with
  | None => Done () w
  | Some _ =>
      if noDuration c then Done () w
      else
        let x := clientX - rectLeft in
        let percentage := x / rectWidth in
        let newTime := percentage * duration c in
        let wasPlaying := isPlaying c in
        (when wasPlaying (step PlayerStop (onPlayer player_stop)) ;;
         step (PlayerStart (Some 0) newTime)
              (onPlayer (player_start (Some 0) newTime)) ;;
         setState (setCurrentTime newTime) ;;
         when (negb wasPlaying)
           (step PlayerStop (onPlayer player_stop) ;;
            setState (setIsPlaying false))) w
  end.

(** The statements of [downloadTransformed] that can throw. *)
Inductive Fault :=
  | ToneStartRejects
  | PlayerStartThrows
  | RecorderStopRejects
  | DownloadThrows.

#[global] Instance Fault_eq_dec : EqDecision Fault.
Proof. solve_decision. Defined.

(** The [try] block of [downloadTransformed] for the track called [title];
    [fault] names the statement that throws in this run, if any.  [c] is
    the render the handler closes over: the React state when the button is
    clicked.  While the handler sleeps the page stays live: [loopClick] is
    [Some t] when the user clicks the loop button [t] milliseconds into the
    sleep.  The loop flag is off from the start of the player to that
    click, and is what the click made it from the click to the end of the
    sleep, so both [elapse] steps measure from the start of the player. *)
Definition recordingBody (title : string) (fault : option Fault)
    (loopClick : option Q) (c : Card) : M unit :=
  let throws f := bool_decide (fault = Some f) in
  setState (setIsRecording true) ;;
  (* Store original loop state *)
  let wasLooping := loopEnabled c in
  let wasPlaying := isPlaying c in
  (* Stop playback and disable loop *)
  when wasPlaying (step PlayerStop (onPlayer player_stop)) ;;
  step (SetLoop false) (onPlayer (player_setLoop false)) ;;
  (* Start recording *)
  mayThrow (throws ToneStartRejects) ToneStart (λ c, c) ;;
  step RecorderStart (onRecorder true) ;;
  (* Play track from beginning to end *)
  mayThrow (throws PlayerStartThrows) (PlayerStart None 0)
    (onPlayer (player_start None 0)) ;;
  (* Wait for playback to complete (accounting for playback rate) *)
  let recordDuration := (duration c / playbackRate c) * 1000 in
  match loopClick with
  | Some t => step LoopButton (λ c, clickLoop (elapse t c))
  | None => mret ()
  end ;;
  step (Wait (recordDuration + 500)) (elapse (recordDuration + 500)) ;;
  (* Stop recording *)
  mayThrow (throws RecorderStopRejects) RecorderStop (onRecorder false) ;;
  (* Create download link *)
  mayThrow (throws DownloadThrows)
    (Download (title +:+ "_transformed.webm")) (λ c, c) ;;
  (* Restore original state *)
  step (SetLoop wasLooping) (onPlayer (player_setLoop wasLooping)) ;;
  when (negb wasPlaying) (step PlayerStop (onPlayer player_stop)) ;;
  setState (setIsRecording false).

Definition recordingCatch : M unit :=
  step (ConsoleError "Failed to download:") (λ c, c) ;;
  step (Alert "Failed to download transformed audio") (λ c, c) ;;
  setState (setIsRecording false).

(** [downloadTransformed], with what the user does during its sleep. *)
Definition downloadTransformedWhile (loopClick : option Q) (title : string)
    (fault : option Fault) : M unit := λ w,
  let c := card w in
  let notReady := step (Alert "Audio not ready for download") (λ c, c) in
  match playerRef c, recorderRef c with
  | Some _, Some _ =>
      if noDuration c then notReady w
      else tryCatch (recordingBody title fault loopClick c) recordingCatch w
  | _, _ => notReady w
  end.

(** [downloadTransformed] while the user leaves the page alone. *)
Definition downloadTransformed (title : string) (fault : option Fault)
    : M unit :=
  downloadTransformedWhile None title fault.

(** A handler started on a component, with an empty trace. *)
Definition run {A} (m : M A) (c : Card) : Result A := m (mkWorld c []).

Definition outcome {A} (r : Result A) : World :=
  match r with Done _ w => w | Thrown w => w end.

(** The capture lasts while the recorder runs. *)
Definition recorderRuns (c : Card) : bool :=
  bool_decide (recorderRef c = Some true).

(** [playerRef.current.loop]. *)
Definition loopFlag (c : Card) : option bool := player_loop <$> playerRef c.

(** The connections a rebuild keeps: whatever does not leave the mastering
    EQ or one of the four effects. *)
Definition upstream (g : Graph) : Graph :=
  disconnect Chorus
    (disconnect Distortion
       (disconnect FeedbackDelay (disconnect Reverb (disconnect EQ3 g)))).

Definition rebuilt (n : Node) : bool :=
  match n with
  | EQ3 | Reverb | FeedbackDelay | Distortion | Chorus => true
  | _ => false
  end.

(** The component after a sequence of clicks on the effect buttons. *)
Definition afterClicks (clicks : list EffectButton) : Effects * Graph :=
  foldl (λ st b, toggleEffect b st) mountedChain clicks.

(** The events of a handler's run, in order. *)
Definition events (w : World) : list Event := map fst (trace w).

(** A loaded four-second track, paused, looping, at normal speed. *)
Definition readyCard : Card :=
  mkCard false 0 4 1 true false (Some (mkPlayer true 1 Stopped)) (Some false).

(** A loaded ten-second track that is playing. *)
Definition playingCard : Card :=
  mkCard true 0 10 1 true false (Some (mkPlayer true 1 (Started None 0)))
    (Some false).


(** The four-second track with the loop switched off. *)
Definition onceCard : Card :=
  mkCard false 0 4 1 false false (Some (mkPlayer false 1 Stopped))
    (Some false).

(** What a run shows of the capture: each event with the player's loop flag
    and whether the recorder runs, right after it. *)
Definition captureLog (w : World) : list (Event * option bool * bool) :=
  map (λ ec, (fst ec, loopFlag (snd ec), recorderRuns (snd ec))) (trace w).
(** *** The play button *)

(** The statements of [togglePlay] that can throw: [await Tone.start()]
    rejects, or [start()] finds the buffer not loaded. *)
Inductive PlayFault :=
  | ContextRejects
  | BufferNotLoaded.

#[global] Instance PlayFault_eq_dec : EqDecision PlayFault.
Proof. solve_decision. Defined.

(** [togglePlay] of the single-track player; [fault] names the statement
    that throws in this run, if any. *)
Definition togglePlay (fault : option PlayFault) : M unit := λ w,
  let c := card w in
  let throws f := bool_decide (fault = Some f) in
  match playerRef c with
  | None => step (ConsoleError "Player not initialized") (λ c, c) w
  | Some _ =>
      tryCatch
        (mayThrow (throws ContextRejects) ToneStart (λ c, c) ;;
         if isPlaying c then
           step PlayerStop (onPlayer player_stop) ;;
           setState (setIsPlaying false)
         else
           mayThrow (throws BufferNotLoaded) (PlayerStart None 0)
             (onPlayer (player_start None 0)) ;;
           setState (setIsPlaying true))
        (step (ConsoleError "Failed to play audio:") (λ c, c) ;;
         setState (setIsPlaying false) ;;
         step (Alert "Failed to play audio. Check console for details.")
              (λ c, c))
        w
  end.

(** *** Clear buttons *)

(** "clear all" of the effects: the four flags go off in one update and the
    rebuild effect runs. *)
Definition clearAllEffects (st : Effects * Graph) : Effects * Graph :=
  let fx := mkEffects false false false false in (fx, rebuildChain fx st.2).

(** What the user can do to the preset selection. *)
Inductive PresetClick :=
  | ClickPreset (p : Preset)
  | ClickClearAll.

Definition clickPreset (selection : list string) (c : PresetClick)
    : list string :=
  match c with
  | ClickPreset p => togglePreset (presetName p) selection
  | ClickClearAll => []
  end.

(** The selection after a sequence of clicks; it is empty at mount. *)
Definition selectionAfter (clicks : list PresetClick) : list string :=
  foldl clickPreset [] clicks.

(** *** Display helpers *)

(** The first [k] characters of [pad] repeated; [cur] is what is left of
    the copy being written. *)
Fixpoint fillWith (k : nat) (pad cur : string) : string :=
  match k with
  | O => ""
  | S k' =>
      match cur with
      | String c rest => String c (fillWith k' pad rest)
      | EmptyString =>
          match pad with
          | String c rest => String c (fillWith k' pad rest)
          | EmptyString => ""
          end
      end
  end.

(** [s.padStart(targetLength, pad)]. *)
Definition padStart (targetLength : nat) (pad s : string) : string :=
  if (targetLength <=? String.length s)%nat then s
  else fillWith (targetLength - String.length s) pad pad +:+ s.

(** Rounding toward zero, and the remainder [x % y] of JavaScript, which
    has the sign of [x]. *)
Definition Qtrunc (x : Q) : Z :=
  if Qle_bool 0 x then Qfloor x else Qceiling x.

Definition jsRem (x y : Q) : Q := x - y * inject_Z (Qtrunc (x / y)).

(** [formatTime].  [!seconds] holds for 0; the model has no NaN and no
    infinity. *)
Definition formatTime (seconds : Q) : string :=
  if Qeq_bool seconds 0 then "0:00"
  else
    let mins := Qfloor (seconds / 60) in
    let secs := Qfloor (jsRem seconds 60) in
    pretty mins +:+ ":" +:+ padStart 2 "0" (pretty secs).

(** [x.toFixed(1)]: the integer number of tenths nearest to [x], the larger
    one on a tie, written with one decimal; the sign is written first. *)
Definition tenthsOf (x : Q) : Z := Qfloor (x * 10 + 1 / 2).

Definition showTenths (n : Z) : string :=
  pretty (n / 10)%Z +:+ "." +:+ pretty (n mod 10)%Z.

Definition toFixed1 (x : Q) : string :=
  if Qle_bool 0 x then showTenths (tenthsOf x)
  else "-" +:+ showTenths (tenthsOf (- x)).

(** [formatFileSize], for a size in whole bytes. *)
Definition formatFileSize (bytes : Z) : string :=
  if (bytes <? 1024 * 1024)%Z
  then toFixed1 (inject_Z bytes / 1024) +:+ " KB"
  else toFixed1 (inject_Z bytes / (1024 * 1024)) +:+ " MB".

End TrackCard.

(** ** The track list that feeds the track cards, [lib/TracksContext.tsx] *)

Module TracksContext.

Record TrackUser := mkTrackUser {
  user_id : string;
  username : string;
  name : string
}.

Record Track := mkTrack {
  id : string;
  userId : string;
  title : string;
  filename : string;
  fileUrl : string;
  filePath : string;
  duration : Q;
  createdAt : string;
  fileSize : Z;
  format : string;
  user : option TrackUser
}.

(** The provider's React state. *)
Record Provider := mkProvider {
  tracks : list Track;
  isLoading : bool
}.

(** A call of the provider either resolves or rejects; both leave a
    state behind. *)
Inductive Outcome :=
  | Resolved (p : Provider)
  | Rejected (p : Provider).

Definition stateOf (o : Outcome) : Provider :=
  match o with Resolved p => p | Rejected p => p end.

(** [{ ...track, fileUrl: `/api/stream/${track.id}` }]. *)
Definition withStreamUrl (t : Track) : Track :=
  mkTrack (id t) (userId t) (title t) (filename t)
    ("/api/stream/" +:+ id t) (filePath t) (duration t) (createdAt t)
    (fileSize t) (format t) (user t).

(** [loadUserTracks]: [response] is the parsed body when the request
    succeeded with an ok status, [None] when it did not (not ok, or the
    [fetch] threw and the [catch] logged it). *)
Definition loadUserTracks (response : option (list Track)) (p : Provider)
    : Provider :=
  match response with
  | Some data => mkProvider (map withStreamUrl data) false
  | None => mkProvider (tracks p) false
  end.

(** [addTrack]: [response] is [data.track] of an ok response, [None]
    when the upload was refused or failed; then the error is rethrown. *)
Definition addTrack (response : option Track) (p : Provider) : Outcome :=
  match response with
  | Some track =>
      let newTrack := withStreamUrl track in
      Resolved (mkProvider (newTrack :: tracks p) (isLoading p))
  | None => Rejected p
  end.

(** [getUserTracks]. *)
Definition getUserTracks (uid : string) (p : Provider) : list Track :=
  List.filter (λ track, String.eqb (userId track) uid) (tracks p).

(** [deleteTrack]: [responseOk] is [response.ok] of the DELETE request
    ([false] also stands for a [fetch] that threw). *)
Definition deleteTrack (responseOk : bool) (trackId : string)
    (p : Provider) : Outcome :=
  if responseOk then
    Resolved
      (mkProvider
         (List.filter (λ t, negb (String.eqb (id t) trackId)) (tracks p))
         (isLoading p))
  else Rejected p.

(** What can happen to the provider after it mounted with no tracks; when
    the user signs out the effect on [[user]] empties the list. *)
Inductive Call :=
  | SignedOut
  | Load (response : option (list Track))
  | Add (response : option Track)
  | Delete (responseOk : bool) (trackId : string).

Definition call (p : Provider) (c : Call) : Provider :=
  match c with
  | SignedOut => mkProvider [] false
  | Load response => loadUserTracks response p
  | Add response => stateOf (addTrack response p)
  | Delete ok trackId => stateOf (deleteTrack ok trackId p)
  end.

Definition providerAfter (calls : list Call) : Provider :=
  foldl call (mkProvider [] true) calls.

(** Two tracks of one user, for the scenarios below. *)
Definition demo : Track :=
  mkTrack "t1" "u1" "Demo" "demo.mp3" "" "/uploads/u1/a.mp3" 0
    "2025-01-01" 1048575 "MP3" None.
Definition live : Track :=
  mkTrack "t2" "u1" "Live" "live.wav" "" "/uploads/u1/b.wav" 0
    "2025-01-02" 7340032 "WAV" None.

End TracksContext.

(** ** The upload endpoint behind [addTrack], [app/api/upload/route.ts] *)

Module Upload.

Record File := mkFile {
  file_name : string;
  file_type : string;
  file_size : Z
}.

Inductive Response :=
  | Failure (status : nat) (error : string)
  | Created (track : TracksContext.Track).

Definition validTypes : list string :=
  ["audio/mpeg"; "audio/wav"; "audio/webm"; "audio/ogg"; "audio/mp3"].

(** Max file size: 50MB. *)
Definition maxSize : Z := 50 * 1024 * 1024.

(** [s.split(sep)] for a one-character separator. *)
Fixpoint split (sep : Ascii.ascii) (s : string) : list string :=
  match s with
  | EmptyString => [EmptyString]
  | String c rest =>
      if Ascii.eqb c sep then EmptyString :: split sep rest
      else
        match split sep rest with
        | seg :: segs => String c seg :: segs
        | [] => [String c EmptyString]
        end
  end.

(** [l.pop()]: the last element, [undefined] for an empty array. *)
Definition pop (l : list string) : option string := List.last (map Some l) None.

(** [file.name.split('.').pop() || 'mp3']; the empty string is falsy. *)
Definition fileExtension (name : string) : string :=
  match pop (split "."%char name) with
  | Some ext => if String.eqb ext "" then "mp3" else ext
  | None => "mp3"
  end.

(** [s.includes('.')]. *)
Fixpoint hasDot (s : string) : bool :=
  match s with
  | EmptyString => false
  | String c rest => Ascii.eqb c "."%char || hasDot rest
  end.

Section Route.

(** [String.prototype.toUpperCase], a function of the platform. *)
Variable toUpperCase : string → string.

(** The [POST] handler.  [user] is the signed-in user, if any; [file] and
    [title] are the form fields, if present; [uuid] is the value of
    [randomUUID()]; [stored] tells whether the directory, the file and the
    database row could be written (otherwise the [catch] answers 500);
    [newId] and [now] are the id and creation time the database gives the
    row.  The row has no [fileUrl] (written "" here): [addTrack] sets
    it. *)
Definition POST (user : option TracksContext.TrackUser)
    (file : option File) (title : option string) (uuid : string)
    (stored : bool) (newId now : string) : Response :=
  match user with
  | None => Failure 401 "Not authenticated"
  | Some user =>
      match file, title with
      | Some file, Some title =>
          if String.eqb title "" then
            Failure 400 "File and title are required"
          else if negb (existsb (String.eqb (file_type file)) validTypes)
          then Failure 400 "Invalid file type. Please upload an audio file."
          else if (maxSize <? file_size file)%Z
          then Failure 400 "File too large. Maximum size is 50MB."
          else
            let fileExtension := fileExtension (file_name file) in
            let uniqueFilename := uuid +:+ "." +:+ fileExtension in
            if negb stored then Failure 500 "Failed to upload file"
            else
              let format := toUpperCase fileExtension in
              Created
                (TracksContext.mkTrack newId (TracksContext.user_id user)
                   title (file_name file) ""
                   ("/uploads/" +:+ TracksContext.user_id user +:+ "/"
                    +:+ uniqueFilename)
                   0 now (file_size file) format (Some user))
      | _, _ => Failure 400 "File and title are required"
      end
  end.

End Route.

End Upload.
(** * Properties of the multi-stem player *)

Module MixSession.
Import Tone MultiTrackPlayer.

(** ** Mount *)

Lemma initializeStems_players stems t0 i stem :
  stemPlayersRef (initializeStems stems t0) !! i = Some stem →
  stem = newStemPlayerRef.
Proof.
  unfold initializeStems; simpl.
  assert (G : ∀ (m : gmap string StemPlayerRef),
    (∀ j r, m !! j = Some r → r = newStemPlayerRef) →
    ∀ j r, foldl (λ m stem, <[id stem := newStemPlayerRef]> m) m stems !! j
           = Some r → r = newStemPlayerRef).
  { induction stems as [|x xs IH]; intros m Hm j r; simpl; [by apply Hm|].
    apply IH. intros k r'. rewrite lookup_insert.
    case_decide; [by intros [= <-] | by apply Hm]. }
  apply G. intros j r. by rewrite lookup_empty.
Qed.

Lemma initializeStems_states stems t0 i st :
  stemStates (initializeStems stems t0) !! i = Some st →
  st = initialState.
Proof.
  unfold initializeStems; simpl.
  assert (G : ∀ (m : gmap string StemState),
    (∀ j r, m !! j = Some r → r = initialState) →
    ∀ j r, foldl (λ m stem, <[id stem := initialState]> m) m stems !! j
           = Some r → r = initialState).
  { induction stems as [|x xs IH]; intros m Hm j r; simpl; [by apply Hm|].
    apply IH. intros k r'. rewrite lookup_insert.
    case_decide; [by intros [= <-] | by apply Hm]. }
  apply G. intros j r. by rewrite lookup_empty.
Qed.

Lemma initializeStems_covered stems t0 :
  statesCoverPlayers (initializeStems stems t0).
Proof.
  unfold statesCoverPlayers, initializeStems; simpl.
  assert (G : ∀ (p : gmap string StemPlayerRef) (m : gmap string StemState),
    (∀ j, is_Some (p !! j) → is_Some (m !! j)) →
    ∀ j, is_Some (foldl (λ m stem, <[id stem := newStemPlayerRef]> m) p stems
                    !! j) →
         is_Some (foldl (λ m stem, <[id stem := initialState]> m) m stems
                    !! j)).
  { induction stems as [|x xs IH]; intros p m Hm j; simpl; [by apply Hm|].
    apply IH. intros k. rewrite !lookup_insert.
    case_decide; [by eauto | by apply Hm]. }
  apply G. intros j. rewrite lookup_empty. by intros [? ?].
Qed.

Lemma initializeStems_dry stems t0 : disabledIsDry (initializeStems stems t0).
Proof.
  intros i stem st Hp Hs.
  apply initializeStems_players in Hp as ->.
  apply initializeStems_states in Hs as ->.
  done.
Qed.

(** ** Parameter updates *)

(** Muting through [set_mute] leaves the effect nodes alone. *)
Lemma set_mute_effects b stem :
  stem_reverb (set_mute b stem) = stem_reverb stem ∧
  stem_delay (set_mute b stem) = stem_delay stem ∧
  stem_distortion (set_mute b stem) = stem_distortion stem.
Proof. done. Qed.

(** After [mute = b] the getter reads [b]. *)
Lemma setMute_mute b v : vol_mute (setMute b v) = b.
Proof. by destruct v as [[x|] u], b. Qed.

Lemma set_mute_mute b stem : vol_mute (stem_volume (set_mute b stem)) = b.
Proof. apply setMute_mute. Qed.

(** A write to the gain un-mutes the node. *)
Lemma set_volume_mute x stem :
  vol_mute (stem_volume (set_volume x stem)) = false.
Proof. done. Qed.

(** Muting and un-muting keep the gain the node carries. *)
Lemma setMute_shown b x v : volumeShown x v → volumeShown x (setMute b v).
Proof. by destruct v as [[y|] u], b. Qed.

Lemma updateStemParam_covered i p s :
  statesCoverPlayers s → statesCoverPlayers (updateStemParam i p s).
Proof.
  intros Hcov j. unfold updateStemParam; simpl. intros Hj.
  rewrite lookup_insert. case_decide; [by eauto|]. apply Hcov.
  destruct (stemPlayersRef s !! i) as [stem0|] eqn:Hi; [|done].
  destruct p; simpl in Hj;
    repeat match type of Hj with
    | context [match stemStates s !! i with _ => _ end] =>
        destruct (stemStates s !! i)
    | context [if ?b then _ else _] => destruct b
    end;
    rewrite ?lookup_insert_ne, ?map_lookup_imap in Hj by done; try done.
  destruct (stemPlayersRef s !! j); [by eauto | by destruct Hj].
Qed.

Lemma updateStemParam_dry i p s :
  statesCoverPlayers s → disabledIsDry s →
  disabledIsDry (updateStemParam i p s).
Proof.
  intros Hcov Hdry j stem' st'. unfold updateStemParam; simpl.
  destruct (stemPlayersRef s !! i) as [stem0|] eqn:Hi.
  - destruct (Hcov i) as [st0 Hst0]; [by eauto|]. rewrite Hst0; simpl.
    destruct (decide (i = j)) as [->|Hne].
    + rewrite lookup_insert_eq. intros Hp' [= <-].
      specialize (Hdry j stem0 st0 Hi Hst0).
      destruct p; simpl in *;
        rewrite ?map_lookup_imap, ?Hi, ?Hst0 in Hp'; simpl in Hp';
        repeat match type of Hp' with
        | context [if ?b then _ else _] => destruct b eqn:?
        end;
        rewrite ?lookup_insert_eq, ?Hi in Hp'; injection Hp' as <-; simpl;
        intuition congruence.
    + rewrite lookup_insert_ne by done. intros Hp' Hs'.
      assert (∃ stem, stemPlayersRef s !! j = Some stem ∧
                stem_reverb stem' = stem_reverb stem ∧
                stem_delay stem' = stem_delay stem ∧
                stem_distortion stem' = stem_distortion stem)
        as (stem & Hj & -> & -> & ->).
      { destruct p; simpl in Hp'; rewrite ?Hst0 in Hp';
          repeat match type of Hp' with
          | context [if ?b then _ else _] => destruct b eqn:?
          end;
          rewrite ?lookup_insert_ne, ?map_lookup_imap in Hp' by done;
          eauto.
        destruct (stemPlayersRef s !! j) as [stem|]; [|done].
        simpl in Hp'. injection Hp' as <-. eauto. }
      by apply (Hdry j).
  - rewrite lookup_insert. case_decide; [by simplify_eq; rewrite Hi|].
    by apply (Hdry j).
Qed.

(** ** Play and stop *)

Lemma startStem_player now anySolo state stem :
  player_state (stem_player (startStem now anySolo state stem))
  = Started (Some now) 0.
Proof. unfold startStem. by case_match. Qed.

Lemma startStem_mute now anySolo state stem :
  vol_mute (stem_volume (startStem now anySolo state stem))
  = soloMute anySolo state.
Proof. unfold startStem. case_match; apply setMute_mute. Qed.

Lemma startStem_effects now anySolo state stem :
  stem_reverb (startStem now anySolo state stem) = stem_reverb stem ∧
  stem_delay (startStem now anySolo state stem) = stem_delay stem ∧
  stem_distortion (startStem now anySolo state stem) = stem_distortion stem.
Proof. unfold startStem. by case_match. Qed.

Lemma stopStem_effects states stem :
  stem_reverb (stopStem states stem) = stem_reverb stem ∧
  stem_delay (stopStem states stem) = stem_delay stem ∧
  stem_distortion (stopStem states stem) = stem_distortion stem.
Proof. unfold stopStem. by case_match. Qed.

(** What the [forEach] of the start branch leaves in [stemPlayersRef]: each
    entry is the old one, started or not.  [R] is any relation that holds
    between a stem and itself and ignores a [startStem]. *)
Lemma startEach_lookup (R : string → StemPlayerRef → StemPlayerRef → Prop)
    now anySolo states failed :
  (∀ j a, R j a a) →
  (∀ j a b, R j b (startStem now anySolo (states !! j) a) → R j b a) →
  ∀ ids refs j stem',
    (startEach now anySolo states failed ids refs).1 !! j = Some stem' →
    ∃ stem, refs !! j = Some stem ∧ R j stem' stem.
Proof.
  intros Hrefl Hstart ids.
  induction ids as [|x ids IH]; intros refs j stem'; simpl.
  - intros Hj. by exists stem'.
  - destruct (refs !! x) as [stemx|] eqn:Hx; [|by apply IH].
    case_bool_decide; simpl; [intros Hj; by exists stem'|].
    intros (stem0 & Hj & HR)%IH.
    rewrite lookup_insert in Hj. case_decide as Hxj.
    + subst x. injection Hj as <-. exists stemx. split; [done|].
      by eapply Hstart.
    + by exists stem0.
Qed.

(** When no [start] throws, the [forEach] runs to its end and starts every
    listed stem. *)
Lemma startEach_all now anySolo states failed ids refs :
  NoDup ids → (∀ i, i ∈ ids → is_Some (refs !! i) → i ∉ failed) →
  (startEach now anySolo states failed ids refs).2 = true ∧
  ∀ j, (startEach now anySolo states failed ids refs).1 !! j
       = if bool_decide (j ∈ ids)
         then startStem now anySolo (states !! j) <$> refs !! j
         else refs !! j.
Proof.
  revert refs. induction ids as [|x ids IH]; intros refs Hnd Hok;
    cbn [startEach].
  - split; [done|]. intros j.
    rewrite bool_decide_eq_false_2; [done|]. apply not_elem_of_nil.
  - apply NoDup_cons in Hnd as [Hx Hnd].
    assert (Hother : ∀ j, j ≠ x →
              bool_decide (j ∈ x :: ids) = bool_decide (j ∈ ids)).
    { intros j Hne. apply bool_decide_ext. rewrite elem_of_cons. tauto. }
    assert (Hhere : bool_decide (x ∈ x :: ids) = true).
    { apply bool_decide_eq_true_2, list_elem_of_here. }
    destruct (refs !! x) as [stemx|] eqn:Ex.
    + rewrite bool_decide_eq_false_2
        by (apply Hok; [apply list_elem_of_here|by eauto]).
      destruct (IH (<[x := startStem now anySolo (states !! x) stemx]> refs)
                  Hnd) as [Hc Hl].
      { intros i Hi Hsome. apply Hok; [by apply list_elem_of_further|].
        rewrite lookup_insert_ne in Hsome; [done|]. by intros <-. }
      split; [done|]. intros j. rewrite Hl.
      destruct (decide (j = x)) as [->|Hne].
      * rewrite bool_decide_eq_false_2 by done.
        by rewrite Hhere, lookup_insert_eq, Ex.
      * rewrite lookup_insert_ne by done. by rewrite Hother.
    + destruct (IH refs Hnd) as [Hc Hl].
      { intros i Hi. apply Hok. by apply list_elem_of_further. }
      split; [done|]. intros j. rewrite Hl.
      destruct (decide (j = x)) as [->|Hne].
      * rewrite bool_decide_eq_false_2 by done. by rewrite Hhere, Ex.
      * by rewrite Hother.
Qed.

(** [togglePlay] never touches [stemStates], the listing order or the set
    of failed stems. *)
Lemma togglePlay_states tick ok s :
  stemStates (togglePlay tick ok s) = stemStates s.
Proof.
  unfold togglePlay, Tone_now.
  destruct (isLoading s), (negb ok), (isPlaying s); try done.
  simpl. by destruct (startEach _ _ _ _ _ _).
Qed.

Lemma togglePlay_stemOrder tick ok s :
  stemOrder (togglePlay tick ok s) = stemOrder s.
Proof.
  unfold togglePlay, Tone_now.
  destruct (isLoading s), (negb ok), (isPlaying s); try done.
  simpl. by destruct (startEach _ _ _ _ _ _).
Qed.

(** Every stem of the session after [togglePlay] is a stem of the session
    before, stopped, started or left alone. *)
Lemma togglePlay_lookup (R : StemPlayerRef → StemPlayerRef → Prop)
    tick ok s j stem' :
  (∀ a, R a a) →
  (∀ now anySolo a b st, R b (startStem now anySolo st a) → R b a) →
  (∀ states a, R (stopStem states a) a) →
  stemPlayersRef (togglePlay tick ok s) !! j = Some stem' →
  ∃ stem, stemPlayersRef s !! j = Some stem ∧ R stem' stem.
Proof.
  intros Hrefl Hstart Hstop. unfold togglePlay, Tone_now.
  destruct (isLoading s); [by eauto|].
  destruct (negb ok); [by eauto|].
  destruct (isPlaying s); simpl.
  - rewrite lookup_fmap. destruct (stemPlayersRef s !! j) as [stem|]; [|done].
    intros [= <-]. by eexists.
  - destruct (startEach _ _ _ _ _ _) as [refs completed] eqn:E; simpl.
    intros Hj.
    eapply (startEach_lookup (λ _, R)); [done| |by rewrite E].
    intros i a b. apply Hstart.
Qed.

(** The mute of a voice after [togglePlay]: as before, or recomputed from
    the mute and solo flags. *)
Lemma togglePlay_mute tick ok s j stem' :
  stemPlayersRef (togglePlay tick ok s) !! j = Some stem' →
  ∃ stem, stemPlayersRef s !! j = Some stem ∧
    (vol_mute (stem_volume stem') = vol_mute (stem_volume stem) ∨
     vol_mute (stem_volume stem')
     = soloMute (hasSolo (stemStates s)) (stemStates s !! j)).
Proof.
  unfold togglePlay, Tone_now.
  destruct (isLoading s); [by eauto|].
  destruct (negb ok); [by eauto|].
  destruct (isPlaying s); simpl.
  - rewrite lookup_fmap. destruct (stemPlayersRef s !! j) as [stem|]; [|done].
    intros [= <-]. eexists; split; [done|]. left.
    unfold stopStem. by case_match.
  - destruct (startEach _ _ _ _ _ _) as [refs completed] eqn:E; simpl.
    intros Hj.
    eapply (startEach_lookup
              (λ i a b,
                 vol_mute (stem_volume a) = vol_mute (stem_volume b) ∨
                 vol_mute (stem_volume a)
                 = soloMute (hasSolo (stemStates s)) (stemStates s !! i)));
      [by left| |by rewrite E].
    intros i a b [->| ->]; right; [apply startStem_mute|done].
Qed.

Lemma togglePlay_isLoading tick ok s :
  isLoading (togglePlay tick ok s) = isLoading s.
Proof.
  unfold togglePlay, Tone_now.
  destruct (isLoading s) eqn:E, (negb ok), (isPlaying s); try done.
  simpl. by destruct (startEach _ _ _ _ _ _).
Qed.

Lemma togglePlay_players tick ok s j stem' :
  stemPlayersRef (togglePlay tick ok s) !! j = Some stem' →
  ∃ stem, stemPlayersRef s !! j = Some stem ∧
    stem_reverb stem' = stem_reverb stem ∧
    stem_delay stem' = stem_delay stem ∧
    stem_distortion stem' = stem_distortion stem.
Proof.
  apply (togglePlay_lookup
           (λ a b, stem_reverb a = stem_reverb b ∧
                   stem_delay a = stem_delay b ∧
                   stem_distortion a = stem_distortion b)).
  - done.
  - intros now anySolo a b st (-> & -> & ->). apply startStem_effects.
  - intros states a. apply stopStem_effects.
Qed.

(** The start branch when no stem's load has failed. *)
Lemma togglePlay_start tick s :
  isLoading s = false → isPlaying s = false →
  entriesListed s → failedStems s = [] →
  isPlaying (togglePlay tick true s) = true ∧
  clock (togglePlay tick true s) = clock s + tick ∧
  ∀ j, stemPlayersRef (togglePlay tick true s) !! j
       = startStem (clock s) (hasSolo (stemStates s)) (stemStates s !! j)
           <$> stemPlayersRef s !! j.
Proof.
  intros Hl Hp [Hnd Hlisted] Hf. unfold togglePlay, Tone_now.
  rewrite Hl, Hp; simpl.
  destruct (startEach_all (clock s) (hasSolo (stemStates s)) (stemStates s)
              (failedStems s) (stemOrder s) (stemPlayersRef s) Hnd)
    as [Hc Hall].
  { intros i _ _. rewrite Hf. apply not_elem_of_nil. }
  destruct (startEach _ _ _ _ _ _) as [refs completed]; simpl in *.
  split; [done|]. split; [done|]. intros j. rewrite Hall.
  case_bool_decide as Hj; [done|].
  destruct (stemPlayersRef s !! j) eqn:Ej; [|done].
  destruct Hj. apply Hlisted. by eauto.
Qed.

Lemma togglePlay_covered tick ok s :
  statesCoverPlayers s → statesCoverPlayers (togglePlay tick ok s).
Proof.
  intros Hcov j [stem' Hj]. rewrite togglePlay_states.
  apply togglePlay_players in Hj as (stem & Hj & _). apply Hcov. eauto.
Qed.

Lemma togglePlay_dry tick ok s :
  disabledIsDry s → disabledIsDry (togglePlay tick ok s).
Proof.
  intros Hdry j stem' st'. rewrite togglePlay_states. intros Hj Hs.
  apply togglePlay_players in Hj as (stem & Hj & -> & -> & ->).
  by apply (Hdry j).
Qed.

(** ** Reachable sessions *)

Lemma sessionAfter_invariant tick stems t0 actions :
  statesCoverPlayers (sessionAfter tick stems t0 actions) ∧
  disabledIsDry (sessionAfter tick stems t0 actions).
Proof.
  unfold sessionAfter.
  induction actions as [|a actions IH] using rev_ind; simpl.
  - split; [apply initializeStems_covered | apply initializeStems_dry].
  - rewrite foldl_snoc. destruct IH as [Hcov Hdry].
    destruct a; simpl.
    + done.
    + done.
    + split; [by apply togglePlay_covered | by apply togglePlay_dry].
    + split; [by apply updateStemParam_covered
             | by apply updateStemParam_dry].
Qed.

(** Enabling an effect pushes the mix value stored in the state. *)
Lemma enable_reverb_applies_mix i s stem st :
  stemPlayersRef s !! i = Some stem → stemStates s !! i = Some st →
  stemPlayersRef (updateStemParam i (P_reverbEnabled true) s) !! i
  = Some (set_reverb_wet (reverbMix st) stem).
Proof.
  intros Hp Hs. unfold updateStemParam; simpl. rewrite Hp; simpl.
  rewrite Hs. by rewrite lookup_insert_eq.
Qed.

Lemma enable_delay_applies_mix i s stem st :
  stemPlayersRef s !! i = Some stem → stemStates s !! i = Some st →
  stemPlayersRef (updateStemParam i (P_delayEnabled true) s) !! i
  = Some (set_delay_wet (delayMix st) stem).
Proof.
  intros Hp Hs. unfold updateStemParam; simpl. rewrite Hp; simpl.
  rewrite Hs. by rewrite lookup_insert_eq.
Qed.

(** A mix change is always stored, and reaches the node only when the
    effect is enabled. *)
Lemma reverbMix_stored i v s st :
  stemStates s !! i = Some st →
  stemStates (updateStemParam i (P_reverbMix v) s) !! i
  = Some (setField (P_reverbMix v) st).
Proof.
  intros Hs. unfold updateStemParam; simpl.
  by rewrite lookup_insert_eq, Hs.
Qed.

Lemma delayMix_stored i v s st :
  stemStates s !! i = Some st →
  stemStates (updateStemParam i (P_delayMix v) s) !! i
  = Some (setField (P_delayMix v) st).
Proof.
  intros Hs. unfold updateStemParam; simpl.
  by rewrite lookup_insert_eq, Hs.
Qed.

Lemma updateStemParam_players_some i p s stem :
  stemPlayersRef s !! i = Some stem →
  is_Some (stemPlayersRef (updateStemParam i p s) !! i).
Proof.
  intros Hp. unfold updateStemParam; simpl. rewrite Hp.
  destruct p; simpl;
    repeat match goal with
    | |- context [match stemStates s !! i with _ => _ end] =>
        destruct (stemStates s !! i)
    | |- context [if ?b then _ else _] => destruct b
    end;
    rewrite ?lookup_insert_eq, ?map_lookup_imap, ?Hp; by eauto.
Qed.

(** ** The wiring of a stem *)

Lemma updateStemParam_connections i p s j stem' :
  stemPlayersRef (updateStemParam i p s) !! j = Some stem' →
  ∃ stem, stemPlayersRef s !! j = Some stem ∧
    stem_connections stem' = stem_connections stem.
Proof.
  unfold updateStemParam; simpl.
  destruct (stemPlayersRef s !! i) as [stem0|] eqn:Hi; [|by eauto].
  intros Hp'.
  destruct p; simpl in Hp';
    repeat match type of Hp' with
    | context [match stemStates s !! i with _ => _ end] =>
        destruct (stemStates s !! i)
    | context [if ?b then _ else _] => destruct b
    end;
    rewrite ?map_lookup_imap in Hp';
    try (destruct (stemPlayersRef s !! j) as [stem|]; [|done];
         simpl in Hp'; injection Hp' as <-; by eauto);
    try (by eauto);
    (rewrite lookup_insert in Hp'; case_decide;
     [subst; injection Hp' as <-; by eauto | by eauto]).
Qed.

Lemma togglePlay_connections tick ok s j stem' :
  stemPlayersRef (togglePlay tick ok s) !! j = Some stem' →
  ∃ stem, stemPlayersRef s !! j = Some stem ∧
    stem_connections stem' = stem_connections stem.
Proof.
  apply (togglePlay_lookup
           (λ a b, stem_connections a = stem_connections b)).
  - done.
  - intros now anySolo a b st ->. unfold startStem. by case_match.
  - intros states a. unfold stopStem. by case_match.
Qed.

(** No action rewires a stem: its connections stay those of mount. *)
Lemma sessionAfter_connections tick stems t0 actions i stem :
  stemPlayersRef (sessionAfter tick stems t0 actions) !! i = Some stem →
  stem_connections stem = stemChain.
Proof.
  unfold sessionAfter. revert i stem.
  induction actions as [|a actions IH] using rev_ind; intros i stem.
  - simpl. by intros ->%initializeStems_players.
  - rewrite foldl_snoc. destruct a; simpl.
    + apply IH.
    + apply IH.
    + intros (stem0 & H0 & ->)%togglePlay_connections. by eapply IH.
    + intros (stem0 & H0 & ->)%updateStemParam_connections. by eapply IH.
Qed.

(** ** Solo and mute *)

(** A solo toggle on a stem that has a player recomputes every voice. *)
Lemma solo_update_precedence i v s stem :
  stemPlayersRef s !! i = Some stem →
  soloPrecedence (updateStemParam i (P_solo v) s).
Proof.
  intros Hi j stem' st'. unfold updateStemParam; simpl. rewrite Hi; simpl.
  rewrite map_lookup_imap. intros Hj Hs.
  destruct (stemPlayersRef s !! j) as [stemj|]; [|done].
  simpl in Hj. injection Hj as <-.
  unfold audible. rewrite set_mute_mute, Hs. unfold soloMute; simpl.
  by destruct (hasSolo _), (solo st'), (muted st').
Qed.

(** Starting playback recomputes every voice as well, when no stem's load
    has failed. *)
Lemma play_precedence tick s :
  isLoading s = false → isPlaying s = false →
  entriesListed s → failedStems s = [] →
  soloPrecedence (togglePlay tick true s).
Proof.
  intros Hl Hp Hlisted Hf j stem' st'.
  destruct (togglePlay_start tick s Hl Hp Hlisted Hf) as (_ & _ & Hall).
  rewrite Hall, togglePlay_states. intros Hj Hs.
  destruct (stemPlayersRef s !! j) as [stemj|]; [|done].
  simpl in Hj. injection Hj as <-. rewrite Hs.
  unfold audible. rewrite startStem_mute. unfold soloMute; simpl.
  by destruct (hasSolo _), (solo st'), (muted st').
Qed.

(** A mute toggle does not change who is solo'd. *)
Lemma hasSolo_mute_update i v (states : gmap string StemState) st :
  states !! i = Some st →
  hasSolo (<[i := setField (P_muted v) st]> states) = hasSolo states.
Proof.
  intros Hi. unfold hasSolo. apply bool_decide_ext.
  rewrite !map_Exists_lookup. split; intros (j & x & Hj & Hx).
  - rewrite lookup_insert in Hj. case_decide.
    + injection Hj as <-. by exists i, st.
    + by exists j, x.
  - destruct (decide (i = j)) as [<-|Hne].
    + exists i, (setField (P_muted v) st).
      rewrite lookup_insert_eq. by simplify_eq.
    + exists j, x. by rewrite lookup_insert_ne.
Qed.

(** A mute toggle keeps solo precedence when nobody is solo'd, or when the
    toggled voice is itself solo'd. *)
Lemma mute_update_precedence i v s stem st :
  soloPrecedence s →
  stemPlayersRef s !! i = Some stem → stemStates s !! i = Some st →
  hasSolo (stemStates s) = false ∨ solo st = true →
  soloPrecedence (updateStemParam i (P_muted v) s).
Proof.
  intros Hprec Hi Hst Hcase j stem' st'.
  unfold updateStemParam; cbn -[setField].
  rewrite Hi, Hst; cbn -[setField].
  rewrite (hasSolo_mute_update i v _ st Hst).
  rewrite !lookup_insert. case_decide as Hij.
  - intros [= <-] [= <-]. unfold audible. rewrite set_mute_mute; simpl.
    destruct Hcase as [->| ->]; [done|]. by destruct (hasSolo _).
  - apply Hprec.
Qed.

(** Un-muting a voice that is not solo'd while another voice is solo'd
    makes it audible: solo precedence is lost. *)
Lemma unmute_beside_solo_breaks_precedence i s stem st :
  stemPlayersRef s !! i = Some stem → stemStates s !! i = Some st →
  hasSolo (stemStates s) = true → solo st = false →
  ¬ soloPrecedence (updateStemParam i (P_muted false) s).
Proof.
  intros Hi Hst Hsolo Hns Hprec.
  specialize (Hprec i (set_mute false stem) (setField (P_muted false) st)).
  unfold updateStemParam in Hprec; cbn -[setField] in Hprec.
  rewrite Hi, Hst in Hprec; cbn -[setField] in Hprec.
  rewrite (hasSolo_mute_update i false _ st Hst), Hsolo,
    !lookup_insert_eq in Hprec.
  unfold audible in Hprec. rewrite set_mute_mute in Hprec.
  simpl in Hprec. rewrite Hns in Hprec.
  by specialize (Hprec eq_refl eq_refl).
Qed.

(** C2. Solo precedence says that while some voice is solo'd a voice is
    audible exactly when it is solo'd and not muted, whatever the order of
    the toggles.  The ['muted'] case of [updateStemParam] writes the new
    mute flag to the volume node without looking at the solo flags: after
    Solo on stem B, two clicks on Mute of stem A leave the same mute/solo
    assignment as Solo on B alone, yet A (not solo'd) is audible. *)
Theorem unmute_ignores_solo :
  let s1 := toggleSolo "B" duo in
  let s3 := toggleMute "A" (toggleMute "A" s1) in
  stemStates s3 = stemStates s1 ∧
  hasSolo (stemStates s3) = true ∧
  solo <$> stemStates s3 !! "A" = Some false ∧
  muted <$> stemStates s3 !! "A" = Some false ∧
  audible <$> stemPlayersRef s1 !! "A" = Some false ∧
  audible <$> stemPlayersRef s3 !! "A" = Some true ∧
  ¬ soloPrecedence s3.
Proof.
  assert (H : ∀ s1 s3, s1 = toggleSolo "B" duo →
            s3 = toggleMute "A" (toggleMute "A" s1) →
            stemStates s3 = stemStates s1 ∧
            hasSolo (stemStates s3) = true ∧
            solo <$> stemStates s3 !! "A" = Some false ∧
            muted <$> stemStates s3 !! "A" = Some false ∧
            audible <$> stemPlayersRef s1 !! "A" = Some false ∧
            audible <$> stemPlayersRef s3 !! "A" = Some true).
  { intros s1 s3 -> ->. repeat split; by vm_compute. }
  intros s1 s3.
  destruct (H s1 s3 eq_refl eq_refl) as (E & Hs & Ho & Hm & A1 & A3).
  repeat split; try done.
  intros Hprec.
  destruct (stemPlayersRef s3 !! "A") as [stem|] eqn:Hp; [|done].
  destruct (stemStates s3 !! "A") as [st|] eqn:Hst; [|done].
  specialize (Hprec "A" stem st Hp Hst).
  rewrite Hs in Hprec. simpl in Ho, Hm, A3.
  injection Ho as Ho. injection A3 as A3. rewrite Ho, A3 in Hprec. done.
Qed.

(** ** The sessions the page reaches list their stems *)

Lemma initializeStems_listed stems t0 :
  entriesListed (initializeStems stems t0).
Proof.
  unfold entriesListed, initializeStems; simpl.
  assert (G : ∀ (ids : list string) (m : gmap string StemPlayerRef),
    NoDup ids → (∀ j, is_Some (m !! j) → j ∈ ids) →
    NoDup (foldl (λ ids stem,
                    if bool_decide (id stem ∈ ids) then ids
                    else ids ++ [id stem]) ids stems) ∧
    ∀ j, is_Some (foldl (λ m stem, <[id stem := newStemPlayerRef]> m) m stems
                    !! j) →
         j ∈ foldl (λ ids stem,
                      if bool_decide (id stem ∈ ids) then ids
                      else ids ++ [id stem]) ids stems).
  { induction stems as [|x xs IH]; intros ids m Hnd Hm; simpl; [done|].
    apply IH.
    - case_bool_decide as Hx; [done|].
      apply NoDup_app. split; [done|]. split; [|apply NoDup_singleton].
      intros y Hy ->%list_elem_of_singleton. done.
    - intros j. rewrite lookup_insert. case_decide as Hj.
      + subst j. intros _. case_bool_decide; [done|].
        apply elem_of_app. right. apply list_elem_of_here.
      + intros Hsome%Hm. case_bool_decide; [done|].
        apply elem_of_app. by left. }
  apply G; [apply NoDup_nil_2|].
  intros j. rewrite lookup_empty. by intros [? ?].
Qed.

Lemma updateStemParam_listed i p s :
  entriesListed s → entriesListed (updateStemParam i p s).
Proof.
  intros [Hnd Hl]. split; [done|]. intros j [stem' Hj].
  apply updateStemParam_connections in Hj as (stem & Hj & _).
  apply Hl. by eauto.
Qed.

Lemma togglePlay_listed tick ok s :
  entriesListed s → entriesListed (togglePlay tick ok s).
Proof.
  intros [Hnd Hl]. split; [by rewrite togglePlay_stemOrder|].
  rewrite togglePlay_stemOrder. intros j [stem' Hj].
  apply togglePlay_connections in Hj as (stem & Hj & _).
  apply Hl. by eauto.
Qed.

Lemma sessionAfter_listed tick stems t0 actions :
  entriesListed (sessionAfter tick stems t0 actions).
Proof.
  unfold sessionAfter.
  induction actions as [|a actions IH] using rev_ind; simpl.
  - apply initializeStems_listed.
  - rewrite foldl_snoc. destruct a; simpl.
    + done.
    + done.
    + by apply togglePlay_listed.
    + by apply updateStemParam_listed.
Qed.

(** ** Play *)

(** When no stem's load has failed, pressing play on a loaded, stopped
    session reads the audio clock once, and every stem that has a player,
    whatever its mute and solo flags, is started at that one reading;
    whether it is heard is decided by the mute of its volume node. *)
Lemma play_starts_every_loaded_voice tick stems t0 actions i stem :
  let s := sessionAfter tick stems t0 actions in
  isLoading s = false → isPlaying s = false → failedStems s = [] →
  stemPlayersRef s !! i = Some stem →
  let s' := togglePlay tick true s in
  isPlaying s' = true ∧
  clock s' = clock s + tick ∧
  ∃ stem', stemPlayersRef s' !! i = Some stem' ∧
    player_state (stem_player stem') = Started (Some (clock s)) 0 ∧
    vol_mute (stem_volume stem')
    = soloMute (hasSolo (stemStates s)) (stemStates s !! i).
Proof.
  intros s Hl Hp Hf Hi s'.
  destruct (togglePlay_start tick s Hl Hp
              (sessionAfter_listed tick stems t0 actions) Hf)
    as (A & B & Hall).
  split; [done|]. split; [done|].
  subst s'. rewrite Hall, Hi. simpl.
  eexists; split; [done|].
  by rewrite startStem_player, startStem_mute.
Qed.

(** C7. The start branch means to start every stem at one reading of the
    clock ("Start all players simultaneously", "Always start the player
    for perfect sync"), and does so when every buffer has loaded.  A stem
    whose file failed to load keeps its player in [stemPlayersRef] and
    still ends the loading phase; [start] throws on it and ends the
    [forEach].  With the drums' file missing, play never issues the start
    of the bass.  With the bass' file missing, play starts the drums alone
    and the component reports that nothing is playing, so that the next
    click starts the drums once more instead of stopping them. *)
Theorem play_stops_at_a_failed_stem :
  let state := λ (s : Session) i,
    (λ r, player_state (stem_player r)) <$> stemPlayersRef s !! i in
  let s := duoWithout "A" in
  let s' := togglePlay (1 # 100) true s in
  let t := duoWithout "B" in
  let t' := togglePlay (1 # 100) true t in
  let t'' := togglePlay (1 # 100) true t' in
  (isLoading s = false ∧ isPlaying s = false ∧
   stemOrder s = ["A"; "B"] ∧ failedStems s = ["A"] ∧
   state s "B" = Some Stopped) ∧
  (isPlaying s' = false ∧ state s' "B" = Some Stopped) ∧
  (isLoading t = false ∧ isPlaying t = false ∧
   stemOrder t = ["A"; "B"] ∧ failedStems t = ["B"] ∧
   state t "A" = Some Stopped) ∧
  (isPlaying t' = false ∧ state t' "A" = Some (Started (Some 0) 0) ∧
   audible <$> stemPlayersRef t' !! "A" = Some true) ∧
  (isPlaying t'' = false ∧
   state t'' "A" = Some (Started (Some (1 # 100)) 0)).
Proof. repeat split; by vm_compute. Qed.

(** C10. In every session reached from mount, a stem's reverb, delay and
    distortion nodes have wet value 0 while the effect's flag is off; a
    mix change made while the effect is off leaves the node at 0; and
    switching reverb or delay on applies the mix value stored last
    (distortion has no stored mix: it is switched on at 0.5). *)
Theorem disabled_effect_stays_dry tick stems t0 actions i stem st :
  stemPlayersRef (sessionAfter tick stems t0 actions) !! i = Some stem →
  stemStates (sessionAfter tick stems t0 actions) !! i = Some st →
  let s := sessionAfter tick stems t0 actions in
  (reverbEnabled st = false → reverb_wet (stem_reverb stem) = 0) ∧
  (delayEnabled st = false → delay_wet (stem_delay stem) = 0) ∧
  (distortionEnabled st = false → dist_wet (stem_distortion stem) = 0) ∧
  (∀ v, reverbEnabled st = false →
        reverbWet (updateStemParam i (P_reverbMix v) s) i = Some 0) ∧
  (∀ v, delayEnabled st = false →
        delayWet (updateStemParam i (P_delayMix v) s) i = Some 0) ∧
  (∀ v, reverbWet (updateStemParam i (P_reverbEnabled true)
                     (updateStemParam i (P_reverbMix v) s)) i = Some v) ∧
  (∀ v, delayWet (updateStemParam i (P_delayEnabled true)
                    (updateStemParam i (P_delayMix v) s)) i = Some v) ∧
  reverbWet (updateStemParam i (P_reverbEnabled true) s) i
  = Some (reverbMix st) ∧
  delayWet (updateStemParam i (P_delayEnabled true) s) i
  = Some (delayMix st) ∧
  distortionWet (updateStemParam i (P_distortionEnabled true) s) i
  = Some 0.5.
Proof.
  intros Hp Hs s.
  destruct (sessionAfter_invariant tick stems t0 actions) as [Hcov Hdry].
  fold s in Hp, Hs, Hcov, Hdry.
  destruct (Hdry i stem st Hp Hs) as (Hr & Hd & Hx).
  split; [done|]. split; [done|]. split; [done|].
  assert (Er : ∀ v, stemPlayersRef (updateStemParam i (P_reverbMix v) s) !! i
                    = Some (if reverbEnabled st then set_reverb_wet v stem
                            else stem)).
  { intros v. unfold updateStemParam; simpl. rewrite Hp; simpl. rewrite Hs.
    destruct (reverbEnabled st); by rewrite ?lookup_insert_eq. }
  assert (Ed : ∀ v, stemPlayersRef (updateStemParam i (P_delayMix v) s) !! i
                    = Some (if delayEnabled st then set_delay_wet v stem
                            else stem)).
  { intros v. unfold updateStemParam; simpl. rewrite Hp; simpl. rewrite Hs.
    destruct (delayEnabled st); by rewrite ?lookup_insert_eq. }
  repeat split.
  - intros v Hoff. unfold reverbWet. rewrite Er, Hoff. simpl. by rewrite Hr.
  - intros v Hoff. unfold delayWet. rewrite Ed, Hoff. simpl. by rewrite Hd.
  - intros v. unfold reverbWet.
    erewrite enable_reverb_applies_mix;
      [|apply Er|by apply reverbMix_stored].
    by destruct (reverbEnabled st).
  - intros v. unfold delayWet.
    erewrite enable_delay_applies_mix;
      [|apply Ed|by apply delayMix_stored].
    by destruct (delayEnabled st).
  - unfold reverbWet. by erewrite enable_reverb_applies_mix.
  - unfold delayWet. by erewrite enable_delay_applies_mix.
  - unfold distortionWet, updateStemParam; simpl. rewrite Hp; simpl.
    by rewrite lookup_insert_eq.
Qed.

(** Stem A after its reverb mix was moved to 0.8 with the reverb off. *)
Lemma disabled_effect_stays_dry_witness :
  let actions := [AllStemsLoaded; UpdateStemParam "A" (P_reverbMix 0.8)] in
  let s := sessionAfter (1 # 100) [drums; bass] 0 actions in
  stemPlayersRef s !! "A" = Some newStemPlayerRef ∧
  stemStates s !! "A" = Some (setField (P_reverbMix 0.8) initialState) ∧
  reverbWet s "A" = Some 0 ∧
  reverbWet (updateStemParam "A" (P_reverbEnabled true) s) "A" = Some 0.8.
Proof.
  intros actions s.
  assert (Hp : stemPlayersRef s !! "A" = Some newStemPlayerRef).
  { vm_compute. reflexivity. }
  assert (Hs : stemStates s !! "A"
               = Some (setField (P_reverbMix 0.8) initialState)).
  { vm_compute. reflexivity. }
  split; [exact Hp|]. split; [exact Hs|].
  pose proof (disabled_effect_stays_dry (1 # 100) [drums; bass] 0 actions
                "A" _ _ Hp Hs) as H.
  simpl in H. destruct H as (H1 & _ & _ & _ & _ & _ & _ & H8 & _).
  split; [|exact H8].
  unfold reverbWet. rewrite Hp. simpl. reflexivity.
Defined.

End MixSession.
(** * Properties of the single-track player *)

Module PitchCompensation.
Import TrackCard.Pitch.
Local Open Scope R_scope.

Lemma ln2_neq_0 : ln 2 <> 0.
Proof. pose proof ln_lt_2. lra. Qed.

Lemma log2_1 : log2 1 = 0.
Proof. unfold log2. rewrite ln_1. lra. Qed.

Lemma log2_2 : log2 2 = 1.
Proof. unfold log2. field. apply ln2_neq_0. Qed.

(** Doubling the speed is compensated by a full octave down. *)
Lemma double_speed_compensation :
  shifter_pitch (setPlaybackRate 2 mounted) = Some (-12).
Proof.
  unfold setPlaybackRate, pitchEffect, mounted; simpl.
  rewrite log2_2. f_equal. lra.
Qed.

(** C1. Once the nodes exist, for a playback rate [r] in [0.25, 2] and a
    user pitch shift [p] in [-12, 12], setting the two (in either order)
    leaves the pitch-shift unit at [p - 12 * log2 r], so the listener hears
    the track shifted by [p]; changing the speed alone applies
    [pitchShift - 12 * log2 r] and leaves the perceived shift at the user's
    [pitchShift]. *)
Theorem pitch_follows_rate (c : Card) (r p : R) :
  1 / 4 <= r <= 2 → -12 <= p <= 12 →
  is_Some (player_rate c) → is_Some (shifter_pitch c) →
  shifter_pitch (setPitchShift p (setPlaybackRate r c))
  = Some (p - 12 * log2 r) ∧
  shifter_pitch (setPlaybackRate r (setPitchShift p c))
  = Some (p - 12 * log2 r) ∧
  perceivedShift (setPlaybackRate r (setPitchShift p c)) = Some p ∧
  shifter_pitch (setPlaybackRate r c) = Some (pitchShift c - 12 * log2 r) ∧
  perceivedShift (setPlaybackRate r c) = Some (pitchShift c).
Proof.
  intros _ _ [r0 Hr] [p0 Hp].
  unfold perceivedShift, setPlaybackRate, setPitchShift, pitchEffect; simpl.
  rewrite Hr, Hp; simpl.
  repeat split; f_equal; lra.
Qed.

(** Half speed with the user asking for three semitones up. *)
Lemma pitch_follows_rate_witness :
  1 / 4 <= 1 / 2 <= 2 ∧ -12 <= 3 <= 12 ∧
  shifter_pitch (setPitchShift 3 (setPlaybackRate (1 / 2) mounted))
  = Some (3 - 12 * log2 (1 / 2)) ∧
  perceivedShift (setPlaybackRate (1 / 2) (setPitchShift 3 mounted))
  = Some 3.
Proof.
  assert (Hr : 1 / 4 <= 1 / 2 <= 2) by lra.
  assert (Hp : -12 <= 3 <= 12) by lra.
  assert (H1 : is_Some (player_rate mounted)) by (eexists; reflexivity).
  assert (H2 : is_Some (shifter_pitch mounted)) by (eexists; reflexivity).
  destruct (pitch_follows_rate mounted (1 / 2) 3 Hr Hp H1 H2)
    as (A & _ & B & _).
  split; [exact Hr|]. split; [exact Hp|]. split; [exact A | exact B].
Defined.

End PitchCompensation.

Module Mastering.
Import Tone TrackCard.

Lemma presetValues_name p : presetValues (presetName p) = Some (offsetsOf p).
Proof. by destruct p. Qed.

(** The totals of the [forEach] are the sums of the bands. *)
Lemma foldl_addPreset selected a b c :
  foldl addPreset (a, b, c) (map presetName selected)
  = ((a + fold_right Z.add 0 (map low (map offsetsOf selected)))%Z,
     (b + fold_right Z.add 0 (map mid (map offsetsOf selected)))%Z,
     (c + fold_right Z.add 0 (map high (map offsetsOf selected)))%Z).
Proof.
  revert a b c. induction selected as [|p ps IH]; intros a b c.
  - simpl. f_equal; [f_equal|]; lia.
  - cbn [map foldl].
    assert (E : addPreset (a, b, c) (presetName p)
                = ((a + low (offsetsOf p))%Z, (b + mid (offsetsOf p))%Z,
                   (c + high (offsetsOf p))%Z)).
    { unfold addPreset. by rewrite presetValues_name. }
    rewrite E, IH. cbn [fold_right].
    f_equal; [f_equal|]; lia.
Qed.

(** C4. With at least one preset selected, the low, mid and high gains of
    the mastering EQ are the arithmetic means of the selected presets'
    offsets for that band; with none selected they are 0, 0 and 0. *)
Theorem mastering_gains_are_means (selected : list Preset) (eq3 : EQ3Node) :
  selected ≠ [] →
  masteringEffect (map presetName selected) (Some eq3)
  = Some (mkEQ3 (bandMean low (map offsetsOf selected))
                (bandMean mid (map offsetsOf selected))
                (bandMean high (map offsetsOf selected))) ∧
  masteringEffect [] (Some eq3) = Some (mkEQ3 0 0 0).
Proof.
  intros Hne. split; [|done].
  unfold masteringEffect.
  destruct selected as [|p ps]; [done|].
  rewrite foldl_addPreset. unfold bandMean.
  by rewrite !length_map.
Qed.

(** Warm and Bright together: low (3 - 2) / 2, mid (-1 + 1) / 2,
    high (-2 + 4) / 2. *)
Lemma mastering_gains_are_means_witness :
  [Warm; Bright] ≠ [] ∧
  masteringEffect ["warm"; "bright"] (Some (mkEQ3 0 0 0))
  = Some (mkEQ3 (1 # 2) (0 # 2) (2 # 2)).
Proof.
  assert (Hne : [Warm; Bright] ≠ []) by discriminate.
  split; [exact Hne|].
  exact (proj1 (mastering_gains_are_means [Warm; Bright] (mkEQ3 0 0 0) Hne)).
Defined.

(** ** Toggling a preset *)

Lemma includes_In q (S : list string) :
  existsb (String.eqb q) S = true ↔ In q S.
Proof.
  rewrite existsb_exists. split.
  - intros (x & Hx & E). apply String.eqb_eq in E. by subst.
  - intros H. exists q. split; [done|]. apply String.eqb_refl.
Qed.

Lemma In_without q x (S : list string) :
  In x (List.filter (λ p, negb (String.eqb p q)) S) ↔ In x S ∧ x ≠ q.
Proof.
  rewrite filter_In, negb_true_iff. split; intros [H E]; split; try done.
  - intros ->. by rewrite String.eqb_refl in E.
  - by apply String.eqb_neq.
Qed.

Lemma without_absent q (S : list string) :
  ¬ In q S → List.filter (λ p, negb (String.eqb p q)) S = S.
Proof.
  induction S as [|x xs IH]; intros Hq; simpl; [done|].
  destruct (String.eqb_spec x q) as [->|Hne]; simpl.
  - destruct Hq. by left.
  - f_equal. apply IH. intros H. apply Hq. by right.
Qed.

(** Toggling a name that is not selected, twice, gives the list back. *)
Lemma toggle_twice_absent q (S : list string) :
  ¬ In q S → togglePreset q (togglePreset q S) = S.
Proof.
  intros Hq. unfold togglePreset at 2.
  destruct (existsb (String.eqb q) S) eqn:E.
  { apply includes_In in E. done. }
  unfold togglePreset.
  assert (Hin : existsb (String.eqb q) (S ++ [q]) = true).
  { apply includes_In, in_or_app. right. by left. }
  rewrite Hin, List.filter_app, without_absent by done. simpl.
  rewrite String.eqb_refl. simpl. apply app_nil_r.
Qed.

(** Toggling a selected name twice moves it to the end of the list. *)
Lemma toggle_twice_present q (S : list string) :
  In q S →
  togglePreset q (togglePreset q S)
  = List.filter (λ p, negb (String.eqb p q)) S ++ [q].
Proof.
  intros Hq. unfold togglePreset at 2.
  apply includes_In in Hq as E. rewrite E.
  unfold togglePreset.
  destruct (existsb _ (List.filter _ S)) eqn:E'; [|done].
  apply includes_In, In_without in E' as [_ ?]. done.
Qed.

Lemma without_NoDup q (S : list string) :
  NoDup S → NoDup (List.filter (λ p, negb (String.eqb p q)) S).
Proof. rewrite !NoDup_ListNoDup. apply List.NoDup_filter. Qed.

Lemma toggle_twice_Permutation q (S : list string) :
  NoDup S → Permutation S (togglePreset q (togglePreset q S)).
Proof.
  intros Hnd. destruct (in_dec String.string_dec q S) as [Hq|Hq].
  - rewrite toggle_twice_present by done.
    apply NoDup_Permutation; [done| |].
    + apply NoDup_app. split; [by apply without_NoDup|].
      split; [|apply NoDup_singleton].
      intros x Hx ->%list_elem_of_singleton.
      apply list_elem_of_In, In_without in Hx as [_ ?]. done.
    + intros x. rewrite elem_of_app, list_elem_of_singleton.
      rewrite !list_elem_of_In, In_without.
      destruct (String.string_dec x q) as [->|Hne]; intuition congruence.
  - by rewrite toggle_twice_absent.
Qed.

Lemma addPreset_comm totals x y :
  addPreset (addPreset totals x) y = addPreset (addPreset totals y) x.
Proof.
  destruct totals as [[a b] c]. unfold addPreset.
  destruct (presetValues x), (presetValues y); try done.
  f_equal; [f_equal|]; lia.
Qed.

(** The totals do not depend on the order of the selection. *)
Lemma foldl_addPreset_Permutation (l l' : list string) :
  Permutation l l' →
  ∀ totals, foldl addPreset totals l = foldl addPreset totals l'.
Proof.
  induction 1 as [|x l l' _ IH|x y l|l l' l'' _ IH1 _ IH2];
    intros totals; simpl.
  - done.
  - apply IH.
  - by rewrite addPreset_comm.
  - by rewrite IH1.
Qed.

Lemma masteringEffect_Permutation (l l' : list string) eq3Ref :
  Permutation l l' → masteringEffect l eq3Ref = masteringEffect l' eq3Ref.
Proof.
  intros HP. unfold masteringEffect.
  rewrite (Permutation_length HP).
  by rewrite (foldl_addPreset_Permutation _ _ HP).
Qed.

(** The selection never holds a name twice: it starts empty and changes
    only through the preset buttons and Clear all. *)
Lemma togglePreset_NoDup q (S : list string) :
  NoDup S → NoDup (togglePreset q S).
Proof.
  intros Hnd. unfold togglePreset.
  destruct (existsb (String.eqb q) S) eqn:E.
  - by apply without_NoDup.
  - apply NoDup_app. split; [done|]. split; [|apply NoDup_singleton].
    intros x Hx ->%list_elem_of_singleton.
    apply list_elem_of_In, includes_In in Hx. congruence.
Qed.

#[global] Instance presetName_inj : Inj (=) (=) presetName.
Proof. intros [] [] E; by vm_compute in E. Qed.

(** C9. For a selection of presets without repetitions and a preset [q],
    clicking the button of [q] twice gives a selection with the same
    members, and the mastering EQ gets the same gains as before the two
    clicks. *)
Theorem toggle_twice_is_a_no_op (selected : list Preset) (q : Preset)
    (eq3Ref : option EQ3Node) :
  NoDup selected →
  let S := map presetName selected in
  let S' := togglePreset (presetName q) (togglePreset (presetName q) S) in
  (∀ x, x ∈ S' ↔ x ∈ S) ∧
  NoDup S' ∧
  masteringEffect S' eq3Ref = masteringEffect S eq3Ref.
Proof.
  intros Hnd S S'.
  assert (HS : NoDup S) by (by apply (NoDup_fmap_2 presetName)).
  pose proof (toggle_twice_Permutation (presetName q) S HS) as HP.
  fold S' in HP. split; [|split].
  - intros x. by rewrite HP.
  - by do 2 apply togglePreset_NoDup.
  - symmetry. by apply masteringEffect_Permutation.
Qed.

(** Warm and Bright selected, Warm clicked twice. *)
Lemma toggle_twice_is_a_no_op_witness :
  NoDup [Warm; Bright] ∧
  togglePreset "warm" (togglePreset "warm" ["warm"; "bright"])
  = ["bright"; "warm"] ∧
  masteringEffect ["bright"; "warm"] (Some (mkEQ3 0 0 0))
  = masteringEffect ["warm"; "bright"] (Some (mkEQ3 0 0 0)).
Proof.
  assert (Hnd : NoDup [Warm; Bright]).
  { apply NoDup_cons. split; [|apply NoDup_singleton].
    intros H%list_elem_of_singleton. discriminate H. }
  split; [exact Hnd|]. split; [reflexivity|].
  exact (proj2 (proj2 (toggle_twice_is_a_no_op [Warm; Bright] Warm
                         (Some (mkEQ3 0 0 0)) Hnd))).
Defined.

End Mastering.

Module EffectChain.
Import Tone TrackCard.

(** ** What a rebuild keeps *)

Lemma upstream_cons a b g :
  upstream ((a, b) :: g)
  = if rebuilt a then upstream g else (a, b) :: upstream g.
Proof. by destruct a. Qed.

Lemma upstream_src g e : e ∈ upstream g → rebuilt e.1 = false.
Proof.
  induction g as [|[a b] g IH]; [by intros ?%elem_of_nil|].
  rewrite upstream_cons. destruct (rebuilt a) eqn:Ha; [done|].
  intros [->|?]%elem_of_cons; [done | by apply IH].
Qed.

Lemma upstream_app g h : upstream (g ++ h) = upstream g ++ upstream h.
Proof.
  induction g as [|[a b] g IH]; [done|].
  rewrite <- app_comm_cons, !upstream_cons, IH. by destruct (rebuilt a).
Qed.

Lemma upstream_idemp g : upstream (upstream g) = upstream g.
Proof.
  induction g as [|[a b] g IH]; [done|].
  rewrite upstream_cons. destruct (rebuilt a) eqn:Ha; [done|].
  by rewrite upstream_cons, Ha, IH.
Qed.

(** A connection out of a rebuilt node is new when the part of the graph
    built so far does not have it. *)
Lemma connect_fresh a b u l :
  rebuilt a = true → (∀ e, e ∈ u → rebuilt e.1 = false) →
  bool_decide ((a, b) ∈ l) = false →
  connect a b (u ++ l) = u ++ (l ++ [(a, b)]).
Proof.
  intros Ha Hu Hl. unfold connect.
  rewrite bool_decide_eq_false_2; [by rewrite app_assoc|].
  rewrite elem_of_app. intros [H|H].
  - apply Hu in H. simpl in H. congruence.
  - by apply bool_decide_eq_false_1 in Hl.
Qed.

(** The single-track rebuild is a serial chain: the kept connections, then
    one path from the mastering EQ through the enabled effects, in the
    fixed order reverb, delay, distortion, chorus, to the recorder and the
    output. *)
Lemma rebuildChain_serial fx g :
  rebuildChain fx g = upstream g ++ serialPath EQ3 (enabledEffects fx).
Proof.
  unfold rebuildChain, toDestination. fold (upstream g).
  pose proof (upstream_src g) as Hu.
  rewrite <- (app_nil_r (upstream g)) at 1.
  destruct fx as [[] [] [] []]; unfold chainThrough; cbn [reverbEnabled
    delayEnabled distortionEnabled chorusEnabled];
    rewrite !connect_fresh by done; reflexivity.
Qed.

Lemma serialPath_rebuilt fx :
  upstream (serialPath EQ3 (enabledEffects fx)) = [].
Proof. by destruct fx as [[] [] [] []]. Qed.

Lemma upstream_rebuildChain fx g : upstream (rebuildChain fx g) = upstream g.
Proof.
  by rewrite rebuildChain_serial, upstream_app, upstream_idemp,
    serialPath_rebuilt, app_nil_r.
Qed.

(** After any clicks the graph is the rebuild for the current flags. *)
Lemma afterClicks_chain clicks :
  (afterClicks clicks).2
  = upstream initialChain
    ++ serialPath EQ3 (enabledEffects (afterClicks clicks).1).
Proof.
  unfold afterClicks.
  induction clicks as [|b clicks IH] using rev_ind.
  - simpl. apply rebuildChain_serial.
  - rewrite foldl_snoc.
    destruct (foldl _ mountedChain clicks) as [fx g].
    unfold toggleEffect. cbn [fst snd] in *.
    by rewrite rebuildChain_serial, IH, upstream_app, upstream_idemp,
      serialPath_rebuilt, app_nil_r.
Qed.

(** Reverb switched on, then delay: the two are in series, and neither the
    delay nor the output is fed by the mastering EQ. *)
Lemma reverb_then_delay_is_serial :
  let st := afterClicks [BtnReverb; BtnDelay] in
  fst st = mkEffects true true false false ∧
  (Reverb, FeedbackDelay) ∈ snd st ∧
  ((EQ3, FeedbackDelay) ∉ snd st) ∧
  ((EQ3, Destination) ∉ snd st) ∧
  ¬ parallelThenSum (fst st) (snd st).
Proof.
  assert (E : afterClicks [BtnReverb; BtnDelay]
              = (mkEffects true true false false,
                 [(PitchShift, EQ3); (Player, PitchShift); (EQ3, Reverb);
                  (Reverb, FeedbackDelay); (FeedbackDelay, Recorder);
                  (FeedbackDelay, Destination)])) by (by vm_compute).
  intros st. subst st. rewrite E. cbn [fst snd].
  assert (Hdry : (EQ3, Destination)
                 ∉ [(PitchShift, EQ3); (Player, PitchShift); (EQ3, Reverb);
                    (Reverb, FeedbackDelay); (FeedbackDelay, Recorder);
                    (FeedbackDelay, Destination)]).
  { rewrite !not_elem_of_cons. repeat split; try discriminate.
    apply not_elem_of_nil. }
  split; [done|]. split; [|split; [|split]].
  - rewrite !elem_of_cons. auto.
  - rewrite !not_elem_of_cons. repeat split; try discriminate.
    apply not_elem_of_nil.
  - exact Hdry.
  - intros [H _]. by apply Hdry.
Qed.

(** C3. The two players wire their optional effects differently.  In the
    multi-stem player every stem keeps the wiring of mount: the mastering
    EQ feeds the reverb, delay, distortion and envelope nodes and the
    output directly, and each of the four feeds the output.  In the
    single-track player a rebuild chains the enabled effects in series, in
    the fixed order reverb, delay, distortion, chorus, and only the last
    node feeds the recorder and the output.  In both, the graph depends on
    which effects are enabled and not on the order of the clicks. *)
Theorem effect_wiring_ignores_click_order :
  (∀ tick stems t0 actions i stem,
     MultiTrackPlayer.stemPlayersRef
       (MultiTrackPlayer.sessionAfter tick stems t0 actions) !! i
     = Some stem →
     MultiTrackPlayer.stem_connections stem = MultiTrackPlayer.stemChain) ∧
  ((EQ3, Destination) ∈ MultiTrackPlayer.stemChain ∧
   ∀ n, n ∈ [Reverb; FeedbackDelay; Distortion; AmplitudeEnvelope] →
     (EQ3, n) ∈ MultiTrackPlayer.stemChain ∧
     (n, Destination) ∈ MultiTrackPlayer.stemChain) ∧
  (∀ fx g,
     rebuildChain fx g = upstream g ++ serialPath EQ3 (enabledEffects fx)) ∧
  (∀ clicks1 clicks2,
     (afterClicks clicks1).1 = (afterClicks clicks2).1 →
     (afterClicks clicks1).2 = (afterClicks clicks2).2).
Proof.
  split; [|split; [|split]].
  - apply MixSession.sessionAfter_connections.
  - assert (E : MultiTrackPlayer.stemChain
                = [(Player, PitchShift); (PitchShift, Volume);
                   (Volume, Panner); (Panner, EQ3); (EQ3, Reverb);
                   (EQ3, FeedbackDelay); (EQ3, Distortion);
                   (EQ3, AmplitudeEnvelope); (Reverb, Destination);
                   (FeedbackDelay, Destination); (Distortion, Destination);
                   (AmplitudeEnvelope, Destination); (EQ3, Destination)])
      by (by vm_compute).
    rewrite E. split.
    + rewrite !elem_of_cons. auto 20.
    + intros n Hn. rewrite !elem_of_cons in Hn.
      destruct Hn as [->|[->|[->|[->|Hn]]]];
        [| | | |by apply elem_of_nil in Hn];
        split; rewrite !elem_of_cons; auto 20.
  - apply rebuildChain_serial.
  - intros clicks1 clicks2 Hfx.
    by rewrite !afterClicks_chain, Hfx.
Qed.

(** Reverb then delay, and delay then reverb, give one and the same graph. *)
Lemma effect_wiring_ignores_click_order_witness :
  (afterClicks [BtnReverb; BtnDelay]).1 = (afterClicks [BtnDelay; BtnReverb]).1
  ∧ (afterClicks [BtnReverb; BtnDelay]).2
    = (afterClicks [BtnDelay; BtnReverb]).2.
Proof.
  assert (H : (afterClicks [BtnReverb; BtnDelay]).1
              = (afterClicks [BtnDelay; BtnReverb]).1) by reflexivity.
  split; [exact H|].
  exact (proj2 (proj2 (proj2 effect_wiring_ignores_click_order))
           [BtnReverb; BtnDelay] [BtnDelay; BtnReverb] H).
Defined.

End EffectChain.

Module Transport.
Import Tone TrackCard.

(** ** Seek *)

Lemma inside_bar_fraction (x width : Q) :
  0 < width → 0 <= x → x <= width → 0 <= x / width ∧ x / width <= 1.
Proof.
  intros Hw H0 H1. split.
  - apply Qle_shift_div_l; [done|]. Lqa.lra.
  - apply Qle_shift_div_r; [done|]. Lqa.lra.
Qed.

Lemma fraction_of_duration (t d : Q) :
  0 <= t → t <= 1 → 0 <= d → 0 <= t * d ∧ t * d <= d.
Proof. intros. split; Lqa.nra. Qed.




(** ** Recording *)




(** Whatever statement throws, the [catch] block leaves the loop flag at
    the [false] the handler had set. *)
Lemma failed_recording_loop_flag (title : string) (f : Fault) (c : Card)
    (player : PlayerNode) (running : bool) :
  playerRef c = Some player → recorderRef c = Some running →
  noDuration c = false →
  loopFlag (card (outcome (run (downloadTransformed title (Some f)) c)))
  = Some false.
Proof.
  intros Hp Hr Hd.
  unfold run, downloadTransformed, downloadTransformedWhile. cbn [card].
  rewrite Hp, Hr, Hd.
  destruct c as [playing ct d r looping recording pr rr].
  simpl in Hp, Hr. subst pr rr.
  destruct player as [ploop prate pstate].
  destruct f, playing;
    cbv -[Qdiv Qmult Qplus Qminus Qle_bool String.append];
    try destruct (Qle_bool _ _); reflexivity.
Qed.

(** C6. The recording should put the loop flag and the transport back as
    they were on every outcome.  When the recorder's [stop()] rejects on
    the paused, looping track, the [catch] block only reports the failure:
    the player, which has played the track to its end, is left with its
    loop flag off. *)
Theorem failed_recording_is_not_restored :
  let w := outcome
             (run (downloadTransformed "demo" (Some RecorderStopRejects))
                  readyCard) in
  loopFlag readyCard = Some true ∧
  loopFlag (card w) = Some false ∧
  player_state <$> playerRef readyCard = Some Stopped ∧
  player_state <$> playerRef (card w) = Some Stopped ∧
  recorderRef (card w) = Some true ∧
  events w
  = [SetLoop false; ToneStart; RecorderStart; PlayerStart None 0;
     Wait (4 / 1 * 1000 + 500); ConsoleError "Failed to download:";
     Alert "Failed to download transformed audio"].
Proof. by repeat split. Qed.

End Transport.

(** * Further properties of the multi-stem player *)

Module MixSessionMore.
Import Tone MultiTrackPlayer MixSession.

(** ** Displayed state and applied parameters *)

Lemma set_mute_inSync b st stem : inSync st stem → inSync st (set_mute b stem).
Proof.
  unfold inSync. intros (Hv & H). split; [|exact H].
  by apply setMute_shown.
Qed.

Lemma startStem_inSync now anySolo state st stem :
  inSync st stem → inSync st (startStem now anySolo state stem).
Proof.
  intros (Hv & H). unfold startStem.
  destruct (from_option envelopeEnabled false state && _);
    (split; [by apply setMute_shown | exact H]).
Qed.

Lemma stopStem_inSync states st stem :
  inSync st stem → inSync st (stopStem states stem).
Proof.
  intros H. unfold stopStem.
  by destruct (from_option envelopeEnabled false _).
Qed.

Lemma initializeStems_synced stems t0 : synced (initializeStems stems t0).
Proof.
  intros i stem st Hp Hs.
  apply initializeStems_players in Hp as ->.
  apply initializeStems_states in Hs as ->.
  by repeat split.
Qed.

Lemma togglePlay_synced tick ok s : synced s → synced (togglePlay tick ok s).
Proof.
  intros Hsync j stem' st'. rewrite togglePlay_states. intros Hj Hs.
  apply (togglePlay_lookup (λ a b, ∀ st, inSync st b → inSync st a))
    in Hj as (stem & Hj & Hkeep).
  - apply Hkeep. by apply (Hsync j).
  - done.
  - intros now anySolo a b st Hb st0 Ha. by apply Hb, startStem_inSync.
  - intros states a st0 Ha. by apply stopStem_inSync.
Qed.

Lemma updateStemParam_synced i p s :
  statesCoverPlayers s → synced s → synced (updateStemParam i p s).
Proof.
  intros Hcov Hsync j stem' st'. unfold updateStemParam; simpl.
  destruct (stemPlayersRef s !! i) as [stem0|] eqn:Hi.
  - destruct (Hcov i) as [st0 Hst0]; [by eauto|]. rewrite Hst0; simpl.
    destruct (decide (i = j)) as [->|Hne].
    + rewrite lookup_insert_eq. intros Hp' [= <-].
      specialize (Hsync j stem0 st0 Hi Hst0).
      destruct Hsync as (?&?&?&?&?&?&?&?&?&?&?&?&?&?&?).
      destruct p; simpl in *;
        rewrite ?map_lookup_imap, ?Hi, ?Hst0 in Hp'; simpl in Hp';
        repeat match type of Hp' with
        | context [if ?b then _ else _] => destruct b eqn:?
        end;
        rewrite ?lookup_insert_eq, ?Hi in Hp'; injection Hp' as <-;
        unfold inSync; simpl; repeat split;
        try congruence; try (by apply setMute_shown).
    + rewrite lookup_insert_ne by done. intros Hp' Hs'.
      assert (∃ stem, stemPlayersRef s !! j = Some stem ∧
                (stem' = stem ∨ ∃ b, stem' = set_mute b stem))
        as (stem & Hj & Hsame).
      { destruct p; simpl in Hp'; rewrite ?Hst0 in Hp';
          repeat match type of Hp' with
          | context [if ?b then _ else _] => destruct b eqn:?
          end;
          rewrite ?lookup_insert_ne, ?map_lookup_imap in Hp' by done;
          try (by eauto).
        destruct (stemPlayersRef s !! j) as [stem|]; [|done].
        simpl in Hp'. injection Hp' as <-. by eauto. }
      destruct Hsame as [->|[b ->]]; [by apply (Hsync j)|].
      apply set_mute_inSync. by apply (Hsync j).
  - rewrite lookup_insert. case_decide; [by simplify_eq; rewrite Hi|].
    by apply (Hsync j).
Qed.

(** X1. In every session reached from mount, the parameters applied to a
    stem's nodes are the ones its state entry shows: the three EQ gains,
    delay time and feedback, distortion amount, pitch and the four envelope
    times; the reverb and delay wet values are the stored mix when the
    effect is on and 0 when it is off, the distortion wet value is 0.5 when
    on and 0 when off.  The gain of the volume node is the state's volume
    while the node is not muted; while it is muted, the state's volume is
    the value that the node puts back at un-mute. *)
Theorem nodes_show_the_state tick stems t0 actions i stem st :
  stemPlayersRef (sessionAfter tick stems t0 actions) !! i = Some stem →
  stemStates (sessionAfter tick stems t0 actions) !! i = Some st →
  inSync st stem.
Proof.
  assert (G : statesCoverPlayers (sessionAfter tick stems t0 actions) ∧
              synced (sessionAfter tick stems t0 actions)).
  { unfold sessionAfter.
    induction actions as [|a actions IH] using rev_ind; simpl.
    - split; [apply initializeStems_covered | apply initializeStems_synced].
    - rewrite foldl_snoc. destruct IH as [Hcov Hsync]. destruct a; simpl.
      + done.
      + done.
      + split; [by apply togglePlay_covered | by apply togglePlay_synced].
      + split; [by apply updateStemParam_covered
               | by apply updateStemParam_synced]. }
  intros Hp Hs. by apply (proj2 G i).
Qed.

(** Stem A after its volume was set to -6 dB, its reverb switched on and
    the stem muted: the node's gain is [-Infinity], and -6 is kept for the
    un-mute. *)
Lemma nodes_show_the_state_witness :
  let actions := [AllStemsLoaded; UpdateStemParam "A" (P_volume (-(6)));
                  UpdateStemParam "A" (P_reverbEnabled true);
                  UpdateStemParam "A" (P_muted true)] in
  let s := sessionAfter (1 # 100) [drums; bass] 0 actions in
  ∃ stem st,
    stemPlayersRef s !! "A" = Some stem ∧ stemStates s !! "A" = Some st ∧
    inSync st stem ∧
    reverb_wet (stem_reverb stem) = 0.35 ∧ volume st = -(6) ∧
    stem_volume stem = mkVolume None (-(6)).
Proof.
  intros actions s.
  destruct (stemPlayersRef s !! "A") as [stem|] eqn:Hp;
    [|by vm_compute in Hp].
  destruct (stemStates s !! "A") as [st|] eqn:Hs; [|by vm_compute in Hs].
  exists stem, st. split; [reflexivity|]. split; [reflexivity|].
  split.
  - exact (nodes_show_the_state (1 # 100) [drums; bass] 0 actions "A"
             stem st Hp Hs).
  - vm_compute in Hp, Hs. injection Hp as <-. injection Hs as <-.
    repeat split; reflexivity.
Defined.

(** ** What an update leaves alone *)

(** X2. No parameter update starts, stops or otherwise changes the player
    of any stem: the transport of every voice is the same before and after
    [updateStemParam], whatever the stem and the parameter. *)
Theorem updates_leave_the_transport i p s j :
  stem_player <$> stemPlayersRef (updateStemParam i p s) !! j
  = stem_player <$> stemPlayersRef s !! j.
Proof.
  unfold updateStemParam; simpl.
  destruct (stemPlayersRef s !! i) as [stem0|] eqn:Hi; [|done].
  destruct p; simpl;
    repeat match goal with
    | |- context [match stemStates s !! i with _ => _ end] =>
        destruct (stemStates s !! i)
    | |- context [if ?b then _ else _] => destruct b
    end;
    rewrite ?map_lookup_imap; try done;
    try (by destruct (stemPlayersRef s !! j));
    (rewrite lookup_insert; case_decide; [subst; by rewrite Hi | done]).
Qed.

(** The nodes of the other stems after an update that is not a solo. *)
Lemma update_other_nodes i p s j :
  isSoloParam p = false → i ≠ j →
  stemPlayersRef (updateStemParam i p s) !! j = stemPlayersRef s !! j.
Proof.
  intros Hp Hne. unfold updateStemParam; simpl.
  destruct (stemPlayersRef s !! i) as [stem0|] eqn:Hi; [|done].
  destruct p; try discriminate Hp; simpl;
    repeat match goal with
    | |- context [match stemStates s !! i with _ => _ end] =>
        destruct (stemStates s !! i)
    | |- context [if ?b then _ else _] => destruct b
    end;
    by rewrite ?lookup_insert_ne.
Qed.

(** X3. An update of any parameter other than solo, on stem [i], leaves
    the nodes and the state entry of every other stem exactly as they
    were. *)
Theorem update_is_local i p s j :
  isSoloParam p = false → i ≠ j →
  stemPlayersRef (updateStemParam i p s) !! j = stemPlayersRef s !! j ∧
  stemStates (updateStemParam i p s) !! j = stemStates s !! j.
Proof.
  intros Hp Hne. split.
  - by apply update_other_nodes.
  - unfold updateStemParam; simpl. by rewrite lookup_insert_ne.
Qed.

(** Turning up the delay feedback of stem A leaves stem B alone. *)
Lemma update_is_local_witness :
  let s := updateStemParam "A" (P_delayFeedback 0.7) duo in
  isSoloParam (P_delayFeedback 0.7) = false ∧ "A" ≠ "B" ∧
  stemPlayersRef s !! "B" = stemPlayersRef duo !! "B" ∧
  stemStates s !! "B" = stemStates duo !! "B".
Proof.
  assert (Hp : isSoloParam (P_delayFeedback 0.7) = false) by reflexivity.
  assert (Hne : "A" ≠ "B") by discriminate.
  split; [exact Hp|]. split; [exact Hne|].
  exact (update_is_local "A" (P_delayFeedback 0.7) duo "B" Hp Hne).
Defined.

(** X4. An update for a stem that has no player changes no node of any
    stem; the value is stored in the state all the same.  For the solo
    flag this means that the session can count as having a solo'd stem
    without any voice having been recomputed. *)
Theorem update_without_player i p s :
  stemPlayersRef s !! i = None →
  stemPlayersRef (updateStemParam i p s) = stemPlayersRef s ∧
  stemStates (updateStemParam i p s) !! i
  = Some (setField p (default undefinedState (stemStates s !! i))) ∧
  (p = P_solo true → hasSolo (stemStates (updateStemParam i p s)) = true).
Proof.
  intros Hi. unfold updateStemParam; cbn -[setField]. rewrite Hi.
  split; [done|]. split; [by rewrite lookup_insert_eq|].
  intros ->. unfold hasSolo. apply bool_decide_eq_true_2.
  apply map_Exists_lookup. eexists i, _. by rewrite lookup_insert_eq.
Qed.

(** A solo click for a stem "C" that is not part of the session. *)
Lemma update_without_player_witness :
  let s := updateStemParam "C" (P_solo true) duo in
  stemPlayersRef duo !! "C" = None ∧
  stemPlayersRef s = stemPlayersRef duo ∧
  hasSolo (stemStates s) = true.
Proof.
  assert (Hi : stemPlayersRef duo !! "C" = None) by reflexivity.
  destruct (update_without_player "C" (P_solo true) duo Hi) as (A & _ & B).
  split; [exact Hi|]. split; [exact A | exact (B eq_refl)].
Defined.

(** ** Play and pause *)

(** X5. Play followed by pause, on a loaded and stopped session none of
    whose stems failed to load: the session is not playing, the position is
    0, and every stem's player is stopped again; its volume node keeps the
    mute that play gave it and the gain it carried, and nothing else of the
    stem's settings has changed. *)
Theorem play_then_pause tick stems t0 actions i stem :
  let s := sessionAfter tick stems t0 actions in
  isLoading s = false → isPlaying s = false → failedStems s = [] →
  stemPlayersRef s !! i = Some stem →
  let s2 := togglePlay tick true (togglePlay tick true s) in
  isPlaying s2 = false ∧ currentTime s2 = 0 ∧
  stemStates s2 = stemStates s ∧
  ∃ stem2, stemPlayersRef s2 !! i = Some stem2 ∧
    player_state (stem_player stem2) = Stopped ∧
    vol_mute (stem_volume stem2)
    = soloMute (hasSolo (stemStates s)) (stemStates s !! i) ∧
    (∀ x, volumeShown x (stem_volume stem) →
          volumeShown x (stem_volume stem2)) ∧
    sameSettings stem2 stem.
Proof.
  intros s Hl Hp Hf Hi s2.
  destruct (togglePlay_start tick s Hl Hp
              (sessionAfter_listed tick stems t0 actions) Hf)
    as (A & _ & Hall).
  assert (Hl1 : isLoading (togglePlay tick true s) = false)
    by (by rewrite togglePlay_isLoading).
  pose proof (togglePlay_states tick true s) as Hst.
  subst s2. revert A Hl1 Hst Hall.
  generalize (togglePlay tick true s). intros s1 A Hl1 Hst Hall.
  unfold togglePlay. rewrite Hl1, A. simpl.
  split; [done|]. split; [done|]. split; [done|].
  rewrite lookup_fmap, Hall, Hi. simpl.
  eexists; split; [done|].
  split; [unfold stopStem; by case_match|].
  split; [unfold stopStem; case_match; apply startStem_mute|].
  split.
  - intros x Hx. unfold stopStem, startStem.
    repeat case_match; by apply setMute_shown.
  - unfold stopStem, startStem, sameSettings.
    repeat case_match; by repeat split.
Qed.

(** Stem B solo'd, then play and pause: stem A is stopped and muted. *)
Lemma play_then_pause_witness :
  let actions := [AllStemsLoaded; UpdateStemParam "B" (P_solo true)] in
  let s := sessionAfter (1 # 100) [drums; bass] 0 actions in
  let s2 := togglePlay (1 # 100) true (togglePlay (1 # 100) true s) in
  isLoading s = false ∧ isPlaying s = false ∧ failedStems s = [] ∧
  isPlaying s2 = false ∧
  (λ r, player_state (stem_player r)) <$> stemPlayersRef s2 !! "A"
  = Some Stopped ∧
  audible <$> stemPlayersRef s2 !! "A" = Some false.
Proof.
  intros actions s s2.
  assert (Hl : isLoading s = false) by reflexivity.
  assert (Hp : isPlaying s = false) by reflexivity.
  assert (Hf : failedStems s = []) by reflexivity.
  assert (Hi : stemPlayersRef s !! "A"
               = Some (set_mute true newStemPlayerRef)).
  { vm_compute. reflexivity. }
  destruct (play_then_pause (1 # 100) [drums; bass] 0 actions "A" _
              Hl Hp Hf Hi)
    as (A & _ & _ & stem2 & E & B & C & _).
  split; [exact Hl|]. split; [exact Hp|]. split; [exact Hf|].
  split; [exact A|].
  fold s s2 in E. rewrite E. simpl. unfold audible. rewrite B, C.
  split; reflexivity.
Defined.

(** X6. While the stems are still loading, or when the audio context
    cannot be started, the play button starts and stops nothing: the nodes
    of every stem stay as they are. *)
Theorem play_needs_loaded_stems_and_context tick ok s :
  isLoading s = true ∨ ok = false →
  stemPlayersRef (togglePlay tick ok s) = stemPlayersRef s ∧
  (isLoading s = true → togglePlay tick ok s = s) ∧
  (isLoading s = false → isPlaying (togglePlay tick ok s) = false).
Proof.
  intros H. unfold togglePlay.
  destruct (isLoading s) eqn:Hl; [done|].
  destruct H as [?| ->]; done.
Qed.

(** The play button pressed right after mount, before any stem loaded. *)
Lemma play_needs_loaded_stems_witness :
  let s := initializeStems [drums; bass] 0 in
  isLoading s = true ∧ togglePlay (1 # 100) true s = s.
Proof.
  intros s.
  assert (Hl : isLoading s = true) by reflexivity.
  split; [exact Hl|].
  exact (proj1 (proj2 (play_needs_loaded_stems_and_context (1 # 100) true s
                         (or_introl Hl))) Hl).
Defined.

(** ** Solo and mute on the page's stems *)

(** X7. A solo toggle on a stem that has a player recomputes every voice,
    and so does the start of playback when no stem failed to load:
    afterwards a voice is audible exactly when it is not muted and, if some
    voice is solo'd, is itself solo'd. *)
Theorem solo_and_play_recompute_all tick stems t0 actions i v stem :
  let s := sessionAfter tick stems t0 actions in
  stemPlayersRef s !! i = Some stem →
  soloPrecedence (updateStemParam i (P_solo v) s) ∧
  (isLoading s = false → isPlaying s = false → failedStems s = [] →
   soloPrecedence (togglePlay tick true s)).
Proof.
  intros s Hi. split.
  - by eapply solo_update_precedence.
  - intros Hl Hp Hf. apply play_precedence; [done|done| |done].
    apply sessionAfter_listed.
Qed.

(** Solo on stem B of the two-stem session, and play on that session. *)
Lemma solo_and_play_recompute_all_witness :
  let s := sessionAfter (1 # 100) [drums; bass] 0 [AllStemsLoaded] in
  stemPlayersRef s !! "B" = Some newStemPlayerRef ∧
  isLoading s = false ∧ isPlaying s = false ∧ failedStems s = [] ∧
  soloPrecedence (updateStemParam "B" (P_solo true) s) ∧
  soloPrecedence (togglePlay (1 # 100) true s).
Proof.
  intros s.
  assert (Hi : stemPlayersRef s !! "B" = Some newStemPlayerRef).
  { vm_compute. reflexivity. }
  assert (Hl : isLoading s = false) by reflexivity.
  assert (Hp : isPlaying s = false) by reflexivity.
  assert (Hf : failedStems s = []) by reflexivity.
  destruct (solo_and_play_recompute_all (1 # 100) [drums; bass] 0
              [AllStemsLoaded] "B" true _ Hi) as [A B].
  split; [exact Hi|]. split; [exact Hl|]. split; [exact Hp|].
  split; [exact Hf|]. split; [exact A | exact (B Hl Hp Hf)].
Defined.

Lemma solo_setField p st :
  isSoloParam p = false → solo (setField p st) = solo st.
Proof. by destruct p. Qed.

(** Only a solo update changes whether some stem is solo'd. *)
Lemma hasSolo_other_update i p (states : gmap string StemState) st :
  isSoloParam p = false → states !! i = Some st →
  hasSolo (<[i := setField p st]> states) = hasSolo states.
Proof.
  intros Hp Hi. unfold hasSolo. apply bool_decide_ext.
  rewrite !map_Exists_lookup. split; intros (j & x & Hj & Hx).
  - rewrite lookup_insert in Hj. case_decide.
    + injection Hj as <-. exists i, st. by rewrite <- (solo_setField p).
    + by exists j, x.
  - destruct (decide (i = j)) as [<-|Hne].
    + exists i, (setField p st). rewrite lookup_insert_eq.
      rewrite solo_setField by done. by simplify_eq.
    + exists j, x. by rewrite lookup_insert_ne.
Qed.

Lemma soloMute_shown anySolo st :
  anySolo = false ∨ solo st = true →
  soloMute anySolo (Some st) = muted st.
Proof. unfold soloMute; simpl. by intros [->| ->]; [|destruct anySolo]. Qed.

Lemma initializeStems_heard stems t0 :
  unmutedIsHeard (initializeStems stems t0).
Proof.
  intros i stem st Hp Hs _ _.
  by apply initializeStems_players in Hp as ->.
Qed.

Lemma togglePlay_heard tick ok s :
  unmutedIsHeard s → unmutedIsHeard (togglePlay tick ok s).
Proof.
  intros Hm j stem' st'. rewrite togglePlay_states. intros Hj Hs Hcase Hmu.
  apply togglePlay_mute in Hj as (stem & Hj & [E|E]);
    unfold audible; rewrite E.
  - by apply (Hm j stem st').
  - rewrite Hs, soloMute_shown by done. by rewrite Hmu.
Qed.

Lemma updateStemParam_heard i p s :
  statesCoverPlayers s → is_Some (stemPlayersRef s !! i) →
  unmutedIsHeard s → unmutedIsHeard (updateStemParam i p s).
Proof.
  intros Hcov [stem0 Hi] Hm j stem' st'.
  destruct (Hcov i) as [st0 Hst0]; [by eauto|].
  destruct (isSoloParam p) eqn:Hp.
  - destruct p; try discriminate Hp.
    unfold updateStemParam; simpl. rewrite Hi; simpl.
    rewrite map_lookup_imap.
    destruct (stemPlayersRef s !! j) as [stem|] eqn:Hj; [|done].
    intros [= <-] Hs Hcase Hmu. unfold audible.
    rewrite set_mute_mute, Hs, soloMute_shown by done. by rewrite Hmu.
  - unfold updateStemParam. cbn -[setField applyParam].
    rewrite Hi, Hst0. cbn -[setField applyParam].
    rewrite (hasSolo_other_update i p _ st0 Hp Hst0).
    destruct (decide (i = j)) as [->|Hne].
    + rewrite lookup_insert_eq. intros Hp' [= <-].
      rewrite solo_setField by done. intros Hcase Hmu.
      pose proof (Hm j stem0 st0 Hi Hst0 Hcase) as Hold.
      unfold audible in *.
      destruct p; try discriminate Hp; simpl in *;
        rewrite ?Hst0 in Hp';
        repeat match type of Hp' with
        | context [if ?b then _ else _] => destruct b eqn:?
        end;
        rewrite ?lookup_insert_eq, ?Hi in Hp'; injection Hp' as <-;
        rewrite ?set_mute_mute, ?set_volume_mute, ?Hmu;
        try done; by apply Hold.
    + rewrite lookup_insert_ne by done. intros Hp' Hs'.
      pose proof (update_other_nodes i p s j Hp Hne) as E.
      unfold updateStemParam in E; cbn -[applyParam] in E.
      rewrite Hi in E. rewrite E in Hp'. by apply (Hm j).
Qed.

Lemma Reachable_invariant tick stems t0 s :
  Reachable tick stems t0 s → statesCoverPlayers s ∧ unmutedIsHeard s.
Proof.
  induction 1 as [|s a _ [Hcov Hm] Hknown].
  - split; [apply initializeStems_covered | apply initializeStems_heard].
  - destruct a; simpl in *.
    + done.
    + done.
    + split; [by apply togglePlay_covered | by apply togglePlay_heard].
    + split; [by apply updateStemParam_covered
             | by apply updateStemParam_heard].
Qed.

(** X8. In every session the page can reach by acting on stems that have
    a player, a voice whose mute flag is off is heard, unless some voice is
    solo'd and it is not.  The converse does not hold: the mute is the
    [-Infinity] gain of the volume node, so a move of the volume slider
    makes the voice heard whatever its mute and solo flags say. *)
Theorem unmuted_voice_is_heard tick stems t0 s i stem st :
  Reachable tick stems t0 s →
  stemPlayersRef s !! i = Some stem → stemStates s !! i = Some st →
  (hasSolo (stemStates s) = false ∨ solo st = true →
   muted st = false → audible stem = true) ∧
  (∀ v, audible <$> stemPlayersRef (updateStemParam i (P_volume v) s) !! i
        = Some true ∧
        muted <$> stemStates (updateStemParam i (P_volume v) s) !! i
        = Some (muted st) ∧
        solo <$> stemStates (updateStemParam i (P_volume v) s) !! i
        = Some (solo st)).
Proof.
  intros Hr Hp Hs. split.
  - destruct (Reachable_invariant tick stems t0 s Hr) as [_ Hm].
    by apply (Hm i stem st).
  - intros v. unfold updateStemParam; simpl. rewrite Hp, Hs; simpl.
    by rewrite !lookup_insert_eq.
Qed.

(** Mute on A, then a move of A's volume slider: A is heard although its
    mute flag is on. *)
Lemma unmuted_voice_is_heard_witness :
  let s := toggleMute "A" duo in
  let s' := updateStemParam "A" (P_volume (-(6))) s in
  Reachable (1 # 100) [drums; bass] 0 s ∧
  audible <$> stemPlayersRef s !! "A" = Some false ∧
  muted <$> stemStates s' !! "A" = Some true ∧
  audible <$> stemPlayersRef s' !! "A" = Some true.
Proof.
  intros s s'.
  assert (Hr : Reachable (1 # 100) [drums; bass] 0 s).
  { unfold s, toggleMute.
    apply (reach_act _ _ _ _ (UpdateStemParam "A" _));
      [|eexists; by vm_compute].
    apply (reach_act _ _ _ _ AllStemsLoaded); [|done].
    apply reach_mount. }
  split; [exact Hr|]. split; [by vm_compute|].
  destruct (stemPlayersRef s !! "A") as [stem|] eqn:Hp;
    [|by vm_compute in Hp].
  destruct (stemStates s !! "A") as [st|] eqn:Hs; [|by vm_compute in Hs].
  destruct (unmuted_voice_is_heard (1 # 100) [drums; bass] 0 s "A" stem st
              Hr Hp Hs) as [_ H].
  destruct (H (-(6))) as (A & B & _). fold s' in A, B.
  split; [|exact A].
  rewrite B. vm_compute in Hs. injection Hs as <-. reflexivity.
Defined.

End MixSessionMore.

(** * Further properties of the single-track player *)

Module TransportMore.
Import Tone TrackCard.

(** X9. The play button of the single-track player.  Pressed on a paused
    track it starts the player from the beginning; pressed on a playing
    track it stops the player; so pause followed by play restarts the
    track at offset 0 rather than where it was paused.  The player is
    never started or stopped when the audio context cannot be started. *)
Theorem play_button_restarts_from_zero (c : Card) (player : PlayerNode) :
  playerRef c = Some player →
  let paused := card (outcome (run (togglePlay None) c)) in
  let rejected := outcome (run (togglePlay (Some ContextRejects)) c) in
  (isPlaying c = true →
   isPlaying paused = false ∧
   player_state <$> playerRef paused = Some Stopped ∧
   let resumed := card (outcome (run (togglePlay None) paused)) in
   isPlaying resumed = true ∧
   player_state <$> playerRef resumed = Some (Started None 0)) ∧
  (isPlaying c = false →
   isPlaying paused = true ∧
   player_state <$> playerRef paused = Some (Started None 0)) ∧
  playerRef (card rejected) = playerRef c ∧
  isPlaying (card rejected) = false ∧
  events rejected
  = [ConsoleError "Failed to play audio:";
     Alert "Failed to play audio. Check console for details."].
Proof.
  intros Hp. destruct c as [playing ? ? ? ? ? pr ?]. simpl in Hp. subst pr.
  destruct playing; repeat split; intros; try discriminate; reflexivity.
Qed.

(** The playing ten-second track, paused and resumed. *)
Lemma play_button_restarts_from_zero_witness :
  let paused := card (outcome (run (togglePlay None) playingCard)) in
  let resumed := card (outcome (run (togglePlay None) paused)) in
  isPlaying playingCard = true ∧
  player_state <$> playerRef paused = Some Stopped ∧
  player_state <$> playerRef resumed = Some (Started None 0).
Proof.
  assert (Hp : playerRef playingCard
               = Some (mkPlayer true 1 (Started None 0))) by reflexivity.
  assert (Hplay : isPlaying playingCard = true) by reflexivity.
  destruct (play_button_restarts_from_zero playingCard _ Hp)
    as (A & _).
  destruct (A Hplay) as (_ & B & _ & C).
  split; [exact Hplay|]. split; [exact B | exact C].
Defined.

(** X10. Before the track has loaded (no player, or duration 0) a click
    on the progress bar does nothing at all, and the download button only
    shows the "Audio not ready for download" notice: no statement reaches
    the player or the recorder and the component's state is unchanged. *)
Theorem handlers_wait_for_the_track (c : Card) (x left width : Q)
    (title : string) (fault : option Fault) :
  playerRef c = None ∨ noDuration c = true →
  run (handleSeek x left width) c = Done () (mkWorld c []) ∧
  run (downloadTransformed title fault) c
  = Done () (mkWorld c [(Alert "Audio not ready for download", c)]).
Proof.
  intros H.
  unfold run, handleSeek, downloadTransformed, downloadTransformedWhile, step.
  cbn [card trace].
  destruct H as [H|H]; rewrite H; [done|].
  by destruct (playerRef c), (recorderRef c).
Qed.

(** The component right after mount: nodes created, nothing loaded yet. *)
Lemma handlers_wait_for_the_track_witness :
  let c := mkCard false 0 0 1 true false (Some (mkPlayer true 1 Stopped))
             (Some false) in
  noDuration c = true ∧
  run (handleSeek 60 10 100) c = Done () (mkWorld c []) ∧
  run (downloadTransformed "demo" None) c
  = Done () (mkWorld c [(Alert "Audio not ready for download", c)]).
Proof.
  intros c.
  assert (H : noDuration c = true) by reflexivity.
  split; [exact H|].
  exact (handlers_wait_for_the_track c 60 10 100 "demo" None (or_intror H)).
Defined.

(** X11. Whatever statement of a recording throws, or none: the handler
    itself never throws, the recording indicator is off when it returns, a
    download is offered exactly when nothing threw, and the failure notice
    is shown exactly when something threw. *)
Theorem recording_always_reports (title : string) (fault : option Fault)
    (c : Card) (player : PlayerNode) (running : bool) :
  playerRef c = Some player → recorderRef c = Some running →
  noDuration c = false →
  let r := run (downloadTransformed title fault) c in
  (∃ w, r = Done () w) ∧
  isRecording (card (outcome r)) = false ∧
  (Download (title +:+ "_transformed.webm") ∈ events (outcome r)
   ↔ fault = None) ∧
  (Alert "Failed to download transformed audio" ∈ events (outcome r)
   ↔ fault ≠ None).
Proof.
  intros Hp Hr Hd r. subst r.
  unfold run, downloadTransformed, downloadTransformedWhile. cbn [card].
  rewrite Hp, Hr, Hd.
  destruct c as [playing ct d r looping recording pr rr].
  simpl in Hp, Hr. subst pr rr.
  destruct fault as [[]|], playing;
    (split; [by eexists|]); (split; [reflexivity|]);
    match goal with
    | |- context [events ?w] =>
        let t := constr:(events w) in
        let t' := eval cbv -[Qdiv Qmult Qplus String.append] in t in
        change t with t'
    end;
    rewrite !elem_of_cons, !elem_of_nil;
    (split; (split; [intros H | intros H])); try done;
    try (exfalso; intuition discriminate);
    tauto.
Qed.

(** The paused four-second track: a recording whose download step throws. *)
Lemma recording_always_reports_witness :
  let r := run (downloadTransformed "demo" (Some DownloadThrows)) readyCard in
  noDuration readyCard = false ∧
  isRecording (card (outcome r)) = false ∧
  Alert "Failed to download transformed audio" ∈ events (outcome r).
Proof.
  intros r.
  assert (Hp : playerRef readyCard = Some (mkPlayer true 1 Stopped))
    by reflexivity.
  assert (Hr : recorderRef readyCard = Some false) by reflexivity.
  assert (Hd : noDuration readyCard = false) by reflexivity.
  destruct (recording_always_reports "demo" (Some DownloadThrows) readyCard
              _ _ Hp Hr Hd) as (_ & A & _ & B).
  split; [exact Hd|]. split; [exact A|].
  apply B. discriminate.
Defined.

End TransportMore.

Module EffectChainMore.
Import Tone TrackCard EffectChain.

Lemma flip_flip b fx : flip b (flip b fx) = fx.
Proof. destruct fx as [[] [] [] []], b; reflexivity. Qed.

Lemma afterClicks_snoc clicks b :
  afterClicks (clicks ++ [b]) = toggleEffect b (afterClicks clicks).
Proof. unfold afterClicks. by rewrite foldl_snoc. Qed.

(** The graph after any clicks, as a pair with its flags. *)
Lemma afterClicks_eq clicks :
  afterClicks clicks
  = ((afterClicks clicks).1,
     upstream initialChain
     ++ serialPath EQ3 (enabledEffects (afterClicks clicks).1)).
Proof. rewrite <- afterClicks_chain. by destruct (afterClicks clicks). Qed.

(** Evaluates the list of a membership statement, leaving [∈] alone. *)
Ltac eval_members_in H :=
  match type of H with
  | _ ∈ ?t => let t' := eval vm_compute in t in change t with t' in H
  end.
Ltac eval_members :=
  match goal with
  | |- _ ∈ ?t => let t' := eval vm_compute in t in change t with t'
  end.



(** X13. Switching an effect off and on again (or on and off again), in
    any state the buttons can reach, gives back exactly the flags and the
    graph there were before the two clicks. *)
Theorem effect_double_click_round_trip (clicks : list EffectButton)
    (b : EffectButton) :
  afterClicks (clicks ++ [b; b]) = afterClicks clicks.
Proof.
  replace (clicks ++ [b; b]) with ((clicks ++ [b]) ++ [b])
    by (by rewrite <- app_assoc).
  rewrite (afterClicks_eq clicks), (afterClicks_eq ((clicks ++ [b]) ++ [b])).
  rewrite !afterClicks_snoc. unfold toggleEffect. cbn [fst snd].
  by rewrite flip_flip.
Qed.

(** X14. "Clear all" of the effects, in any state the buttons can reach,
    gives back the flags and the graph of the freshly mounted player: the
    mastering EQ alone feeds the recorder and the output. *)
Theorem clear_all_effects_is_mount (clicks : list EffectButton) :
  clearAllEffects (afterClicks clicks) = mountedChain ∧
  mountedChain.2
  = [(PitchShift, EQ3); (Player, PitchShift); (EQ3, Recorder);
     (EQ3, Destination)].
Proof.
  split; [|reflexivity].
  unfold clearAllEffects, mountedChain.
  rewrite !rebuildChain_serial, afterClicks_chain, upstream_app,
    upstream_idemp, serialPath_rebuilt, app_nil_r.
  done.
Qed.

End EffectChainMore.

Module MasteringMore.
Import Tone TrackCard Mastering.

(** X15. A click on a preset button flips the membership of that preset
    in the selection and of no other name. *)
Theorem toggle_flips_one_membership (q x : string) (S : list string) :
  x ∈ togglePreset q S ↔ (x ≠ q ∧ x ∈ S) ∨ (x = q ∧ q ∉ S).
Proof.
  unfold togglePreset. rewrite !list_elem_of_In.
  destruct (existsb (String.eqb q) S) eqn:E.
  - apply includes_In in E. rewrite In_without.
    destruct (String.string_dec x q) as [->|Hne]; intuition.
  - assert (Hq : ¬ In q S).
    { intros H. apply includes_In in H. congruence. }
    rewrite in_app_iff. simpl.
    destruct (String.string_dec x q) as [->|Hne]; intuition congruence.
Qed.

Lemma toggle_members q x (S : list string) :
  x ∈ togglePreset q S → x ∈ S ∨ x = q.
Proof.
  unfold togglePreset. rewrite !list_elem_of_In.
  destruct (existsb (String.eqb q) S).
  - intros [H _]%In_without. by left.
  - intros [H|[<-|[]]]%in_app_iff; [by left | by right].
Qed.

Lemma presetNames_all p :
  presetName p ∈ ["warm"; "bright"; "punchy"; "airy"; "balanced"].
Proof. destruct p; rewrite !elem_of_cons; tauto. Qed.

Lemma selectionAfter_invariant clicks :
  NoDup (selectionAfter clicks) ∧
  ∀ x, x ∈ selectionAfter clicks → ∃ p, x = presetName p.
Proof.
  unfold selectionAfter.
  induction clicks as [|c clicks [IHn IHp]] using rev_ind.
  - split; [apply NoDup_nil_2 | by intros x ?%elem_of_nil].
  - rewrite foldl_snoc. destruct c as [p|]; simpl.
    + split; [by apply togglePreset_NoDup|].
      intros x [Hx| ->]%toggle_members; [by apply IHp|].
      by exists p.
    + split; [apply NoDup_nil_2 | by intros x ?%elem_of_nil].
Qed.

(** X16. Whatever the user clicks on the preset buttons and on "clear
    all", starting from the empty selection of mount: the selection never
    holds a name twice, holds only names of the table, and so has at most
    five entries. *)
Theorem selection_is_a_set_of_presets (clicks : list PresetClick) :
  NoDup (selectionAfter clicks) ∧
  (∀ x, x ∈ selectionAfter clicks → is_Some (presetValues x)) ∧
  (length (selectionAfter clicks) <= 5)%nat.
Proof.
  destruct (selectionAfter_invariant clicks) as [Hnd Hp].
  split; [done|]. split.
  - intros x [p ->]%Hp. rewrite presetValues_name. by eexists.
  - change 5%nat
      with (length ["warm"; "bright"; "punchy"; "airy"; "balanced"]).
    apply submseteq_length, NoDup_submseteq; [done|].
    intros x [p ->]%Hp. apply presetNames_all.
Qed.

Lemma band_sum_bounds (band : Offsets → Z) (lo hi : Z) selected :
  (∀ p, lo <= band (offsetsOf p) <= hi)%Z →
  (lo * Z.of_nat (length selected)
   <= fold_right Z.add 0 (map band (map offsetsOf selected))
   <= hi * Z.of_nat (length selected))%Z.
Proof.
  intros Hb. induction selected as [|p ps IH]; simpl; [lia|].
  specialize (Hb p). lia.
Qed.

Lemma bandMean_bounds (band : Offsets → Z) (lo hi : Z) selected :
  selected ≠ [] →
  (∀ p, lo <= band (offsetsOf p) <= hi)%Z →
  inject_Z lo <= bandMean band (map offsetsOf selected) ∧
  bandMean band (map offsetsOf selected) <= inject_Z hi.
Proof.
  intros Hne Hb. unfold bandMean. rewrite !length_map.
  pose proof (band_sum_bounds band lo hi selected Hb) as [H1 H2].
  assert (Hn : 0 < inject_Z (Z.of_nat (length selected))).
  { destruct selected; [done|]. rewrite <- (Zlt_Qlt 0). simpl. lia. }
  split.
  - apply Qle_shift_div_l; [done|].
    rewrite <- inject_Z_mult, <- Zle_Qle. done.
  - apply Qle_shift_div_r; [done|].
    rewrite <- inject_Z_mult, <- Zle_Qle. done.
Qed.

(** X17. With at least one preset selected, however many and in whatever
    combination, the mastering EQ is set to a low gain between -2 and 4, a
    mid gain between -2 and 2 and a high gain between -2 and 5. *)
Theorem mastering_gains_are_bounded (selected : list Preset)
    (eq3 : EQ3Node) :
  selected ≠ [] →
  ∃ g, masteringEffect (map presetName selected) (Some eq3) = Some g ∧
    (-2 <= eq_low g ∧ eq_low g <= 4) ∧
    (-2 <= eq_mid g ∧ eq_mid g <= 2) ∧
    (-2 <= eq_high g ∧ eq_high g <= 5).
Proof.
  intros Hne.
  exists (mkEQ3 (bandMean low (map offsetsOf selected))
                (bandMean mid (map offsetsOf selected))
                (bandMean high (map offsetsOf selected))).
  split.
  - unfold masteringEffect. destruct selected as [|p ps]; [done|].
    rewrite foldl_addPreset. unfold bandMean. by rewrite !length_map.
  - cbn [eq_low eq_mid eq_high].
    split; [|split].
    + apply (bandMean_bounds low (-2) 4); [done|]. intros []; simpl; lia.
    + apply (bandMean_bounds mid (-2) 2); [done|]. intros []; simpl; lia.
    + apply (bandMean_bounds high (-2) 5); [done|]. intros []; simpl; lia.
Qed.

(** Punchy and Airy together. *)
Lemma mastering_gains_are_bounded_witness :
  [Punchy; Airy] ≠ [] ∧
  ∃ g, masteringEffect ["punchy"; "airy"] (Some (mkEQ3 0 0 0)) = Some g ∧
    (-2 <= eq_low g ∧ eq_low g <= 4) ∧
    (-2 <= eq_mid g ∧ eq_mid g <= 2) ∧
    (-2 <= eq_high g ∧ eq_high g <= 5).
Proof.
  assert (Hne : [Punchy; Airy] ≠ []) by discriminate.
  split; [exact Hne|].
  exact (mastering_gains_are_bounded [Punchy; Airy] (mkEQ3 0 0 0) Hne).
Defined.

End MasteringMore.

Module PitchMore.
Import TrackCard.Pitch PitchCompensation.
Local Open Scope R_scope.

Lemma log2_double r : 0 < r → log2 (2 * r) = 1 + log2 r.
Proof.
  intros Hr. unfold log2. rewrite ln_mult by lra.
  field. apply ln2_neq_0.
Qed.

(** X18. For any positive playback rate, doubling the rate lowers the
    value applied to the pitch-shift unit by exactly twelve semitones; at
    rate 1 the unit gets the user's pitch shift unchanged. *)
Theorem doubling_the_rate_is_an_octave (c : Card) (r : R) (p0 : R) :
  0 < r → shifter_pitch c = Some p0 →
  shifter_pitch (setPlaybackRate (2 * r) c)
  = Some (pitchShift c - 12 * log2 r - 12) ∧
  shifter_pitch (setPlaybackRate r c) = Some (pitchShift c - 12 * log2 r) ∧
  shifter_pitch (setPlaybackRate 1 c) = Some (pitchShift c).
Proof.
  intros Hr Hp. unfold setPlaybackRate, pitchEffect; simpl. rewrite Hp.
  rewrite log2_double, log2_1 by done.
  repeat split; f_equal; lra.
Qed.

(** The mounted player taken from rate 3/4 to rate 3/2. *)
Lemma doubling_the_rate_is_an_octave_witness :
  0 < 3 / 4 ∧
  shifter_pitch (setPlaybackRate (2 * (3 / 4)) mounted)
  = Some (pitchShift mounted - 12 * log2 (3 / 4) - 12).
Proof.
  assert (Hr : 0 < 3 / 4) by lra.
  assert (Hp : shifter_pitch mounted = Some (0 + -12 * log2 1))
    by reflexivity.
  split; [exact Hr|].
  exact (proj1 (doubling_the_rate_is_an_octave mounted (3 / 4) _ Hr Hp)).
Defined.

End PitchMore.

Module Display.
Import TrackCard.

(** ** Whole parts of rationals *)

Lemma Qfloor_unique (z : Z) (x : Q) :
  inject_Z z <= x → x < inject_Z (z + 1) → Qfloor x = z.
Proof.
  intros Hle Hlt.
  pose proof (Qfloor_le x) as H1. pose proof (Qlt_floor x) as H2.
  assert (A : (z < Qfloor x + 1)%Z).
  { rewrite Zlt_Qlt. eapply Qle_lt_trans; done. }
  assert (B : (Qfloor x < z + 1)%Z).
  { rewrite Zlt_Qlt. eapply Qle_lt_trans; done. }
  lia.
Qed.

Lemma Qfloor_shift (x : Q) (k : Z) :
  Qfloor (x - inject_Z k) = (Qfloor x - k)%Z.
Proof.
  pose proof (Qfloor_le x) as H1. pose proof (Qlt_floor x) as H2.
  apply Qfloor_unique.
  - unfold Z.sub. rewrite inject_Z_plus, inject_Z_opp. Lqa.lra.
  - replace (Qfloor x - k + 1)%Z with (Qfloor x + 1 + - k)%Z by lia.
    rewrite inject_Z_plus, inject_Z_opp. Lqa.lra.
Qed.

(** ** Times *)

Lemma pad_two_digits (n : Z) :
  (0 <= n < 60)%Z → String.length (padStart 2 "0" (pretty n)) = 2%nat.
Proof.
  intros Hn.
  assert (E : n = Z.of_nat (Z.to_nat n)) by lia.
  assert (Hk : (Z.to_nat n < 60)%nat) by lia.
  rewrite E. generalize dependent (Z.to_nat n). intros k _ Hk.
  do 60 (destruct k as [|k]; [reflexivity|]). lia.
Qed.

(** X19. [formatTime] of a positive time shows the whole minutes, a
    colon, and the remaining whole seconds: the seconds are below 60 and
    always written with exactly two characters, and minutes times 60 plus
    seconds is the time rounded down to a whole second.  Time 0 is shown as
    "0:00". *)
Theorem formatTime_minutes_and_seconds (seconds : Q) :
  0 < seconds →
  ∃ mins secs : Z,
    (0 <= mins)%Z ∧ (0 <= secs < 60)%Z ∧
    (mins * 60 + secs = Qfloor seconds)%Z ∧
    formatTime seconds
    = pretty mins +:+ ":" +:+ padStart 2 "0" (pretty secs) ∧
    String.length (padStart 2 "0" (pretty secs)) = 2%nat ∧
    formatTime 0 = "0:00".
Proof.
  intros Hpos.
  set (mins := Qfloor (seconds / 60)).
  assert (Hdiv : 0 <= seconds / 60).
  { apply Qle_shift_div_l; [reflexivity | Lqa.lra]. }
  assert (Hm0 : (0 <= mins)%Z).
  { change 0%Z with (Qfloor 0). by apply Qfloor_resp_le. }
  assert (Htr : Qtrunc (seconds / 60) = mins).
  { unfold Qtrunc. by rewrite (proj2 (Qle_bool_iff 0 (seconds / 60)) Hdiv). }
  assert (Esec : seconds == seconds / 60 * 60) by (field; discriminate).
  assert (Hlo : inject_Z (60 * mins) <= seconds).
  { rewrite inject_Z_mult.
    pose proof (Qfloor_le (seconds / 60)) as H. fold mins in H.
    change (inject_Z 60) with 60.
    set (t := seconds / 60) in *. Lqa.lra. }
  assert (Hhi : seconds < inject_Z (60 * mins + 60)).
  { rewrite inject_Z_plus, inject_Z_mult.
    pose proof (Qlt_floor (seconds / 60)) as H. fold mins in H.
    rewrite inject_Z_plus in H.
    change (inject_Z 60) with 60. change (inject_Z 1) with 1 in H.
    set (t := seconds / 60) in *. Lqa.lra. }
  assert (Hsecs : Qfloor (jsRem seconds 60) = (Qfloor seconds - 60 * mins)%Z).
  { unfold jsRem. rewrite Htr. rewrite <- Qfloor_shift.
    apply Qfloor_comp. rewrite inject_Z_mult. reflexivity. }
  exists mins, (Qfloor seconds - 60 * mins)%Z.
  assert (Hf1 : (60 * mins <= Qfloor seconds)%Z).
  { rewrite <- (Qfloor_Z (60 * mins)). by apply Qfloor_resp_le. }
  assert (Hf2 : (Qfloor seconds < 60 * mins + 60)%Z).
  { rewrite Zlt_Qlt. eapply Qle_lt_trans; [apply Qfloor_le | done]. }
  split; [done|]. split; [lia|]. split; [lia|].
  split; [|split; [apply pad_two_digits; lia | reflexivity]].
  unfold formatTime.
  assert (Hnz : Qeq_bool seconds 0 = false).
  { destruct (Qeq_bool seconds 0) eqn:E; [|done].
    apply Qeq_bool_eq in E. Lqa.lra. }
  rewrite Hnz. fold mins. by rewrite Hsecs.
Qed.

(** Two minutes and five and a half seconds. *)
Lemma formatTime_minutes_and_seconds_witness :
  0 < 251 # 2 ∧ formatTime (251 # 2) = "2:05".
Proof.
  assert (Hpos : 0 < 251 # 2) by reflexivity.
  split; [exact Hpos|].
  destruct (formatTime_minutes_and_seconds (251 # 2) Hpos)
    as (mins & secs & _ & _ & _ & E & _).
  reflexivity.
Defined.

(** ** File sizes *)

Lemma tenthsOf_ratio (b : Z) (u : positive) :
  tenthsOf (inject_Z b / inject_Z (Zpos u))
  = ((20 * b + Zpos u) / Zpos (2 * u))%Z.
Proof.
  unfold tenthsOf.
  assert (E : inject_Z b / inject_Z (Zpos u) * 10 + 1 / 2
              == (20 * b + Zpos u) # (2 * u)).
  { rewrite (Qmake_Qdiv (20 * b + Zpos u) (2 * u)).
    change (Zpos (2 * u)) with (2 * Zpos u)%Z.
    rewrite inject_Z_plus, !inject_Z_mult.
    change (inject_Z 20) with 20. change (inject_Z 2) with 2.
    field. intros H. discriminate H. }
  rewrite (Qfloor_comp _ _ E). reflexivity.
Qed.

Lemma ratio_nonneg (b : Z) (u : positive) :
  (0 <= b)%Z → Qle_bool 0 (inject_Z b / inject_Z (Zpos u)) = true.
Proof.
  intros Hb. apply Qle_bool_iff. apply Qle_shift_div_l; [reflexivity|].
  rewrite Qmult_0_l. change 0 with (inject_Z 0). by rewrite <- Zle_Qle.
Qed.

(** The number of tenths [formatFileSize] shows. *)
Lemma formatFileSize_tenths (bytes : Z) :
  (0 <= bytes)%Z →
  formatFileSize bytes
  = if (bytes <? 1048576)%Z
    then showTenths ((20 * bytes + 1024) / 2048) +:+ " KB"
    else showTenths ((20 * bytes + 1048576) / 2097152) +:+ " MB".
Proof.
  intros Hb. unfold formatFileSize.
  change (1024 * 1024)%Z with 1048576%Z.
  change (1024 * 1024) with (inject_Z 1048576).
  change 1024 with (inject_Z 1024).
  unfold toFixed1. rewrite !ratio_nonneg, !tenthsOf_ratio by done.
  reflexivity.
Qed.

(** X20. [formatFileSize] of a size in bytes shows kilobytes below
    1048576 bytes and megabytes from there on, as a whole number of tenths
    that is within half a tenth of the true value (a tie goes up).  A size
    shown in KB therefore reads at most 1024.0, one shown in MB at least
    1.0. *)
Theorem formatFileSize_is_accurate (bytes : Z) :
  (0 <= bytes)%Z →
  let small := (bytes <? 1048576)%Z in
  let unit := if small then 1024%Z else 1048576%Z in
  ∃ tenths : Z,
    formatFileSize bytes
    = showTenths tenths +:+ (if small then " KB" else " MB") ∧
    (20 * bytes - unit < 2 * unit * tenths <= 20 * bytes + unit)%Z ∧
    (0 <= tenths)%Z ∧
    (if small then tenths <= 10240 else 10 <= tenths)%Z.
Proof.
  intros Hb small unit. rewrite formatFileSize_tenths by done.
  fold small. subst unit. destruct small eqn:Hs; subst small.
  - apply Z.ltb_lt in Hs.
    exists ((20 * bytes + 1024) / 2048)%Z.
    split; [reflexivity|].
    pose proof (Z.div_mod (20 * bytes + 1024) 2048 ltac:(lia)) as Hdm.
    pose proof (Z.mod_pos_bound (20 * bytes + 1024) 2048 ltac:(lia)) as Hm.
    set (t := ((20 * bytes + 1024) / 2048)%Z) in *.
    repeat split; lia.
  - apply Z.ltb_ge in Hs.
    exists ((20 * bytes + 1048576) / 2097152)%Z.
    split; [reflexivity|].
    pose proof (Z.div_mod (20 * bytes + 1048576) 2097152 ltac:(lia)) as Hdm.
    pose proof (Z.mod_pos_bound (20 * bytes + 1048576) 2097152 ltac:(lia))
      as Hm.
    set (t := ((20 * bytes + 1048576) / 2097152)%Z) in *.
    repeat split; lia.
Qed.

(** One byte short of 1048576: the size is shown as 1024.0 KB. *)
Lemma formatFileSize_is_accurate_witness :
  (0 <= 1048575)%Z ∧ formatFileSize 1048575 = "1024.0 KB".
Proof.
  assert (Hb : (0 <= 1048575)%Z) by lia.
  split; [exact Hb|].
  destruct (formatFileSize_is_accurate 1048575 Hb) as (t & E & _).
  reflexivity.
Defined.

End Display.

(** * Properties of the track list *)

Module TrackList.
Import TracksContext.

Lemma In_remaining trackId t (l : list Track) :
  In t (List.filter (λ t, negb (String.eqb (id t) trackId)) l)
  ↔ In t l ∧ id t ≠ trackId.
Proof.
  rewrite filter_In, negb_true_iff. split; intros [H E]; split; try done.
  - intros Heq. apply String.eqb_neq in E. done.
  - by apply String.eqb_neq.
Qed.

Lemma filter_comm {A} (f g : A → bool) (l : list A) :
  List.filter f (List.filter g l) = List.filter g (List.filter f l).
Proof.
  induction l as [|x l IH]; simpl; [done|].
  destruct (f x) eqn:Hf, (g x) eqn:Hg; simpl; rewrite ?Hf, ?Hg, ?IH; done.
Qed.

Lemma filter_all {A} (f : A → bool) (l : list A) :
  (∀ x, In x l → f x = true) → List.filter f l = l.
Proof.
  induction l as [|x l IH]; simpl; intros H; [done|].
  rewrite (H x) by (by left). f_equal. apply IH. intros y Hy. apply H.
  by right.
Qed.

(** X21. A delete that the server accepts removes from the list exactly
    the tracks with that id and keeps all others (every user's view loses
    the same tracks and nothing else); deleting the same id again changes
    nothing.  A delete that the server refuses rejects and leaves the list
    as it was. *)
Theorem deleteTrack_removes_exactly (trackId : string) (p : Provider) :
  let p' := stateOf (deleteTrack true trackId p) in
  (∀ t, In t (tracks p') ↔ In t (tracks p) ∧ id t ≠ trackId) ∧
  (∀ uid, getUserTracks uid p'
          = List.filter (λ t, negb (String.eqb (id t) trackId))
              (getUserTracks uid p)) ∧
  deleteTrack true trackId p' = Resolved p' ∧
  deleteTrack false trackId p = Rejected p.
Proof.
  simpl. split; [|split; [|split]].
  - intros t. apply In_remaining.
  - intros uid. unfold getUserTracks; simpl. apply filter_comm.
  - unfold deleteTrack; simpl. do 2 f_equal.
    apply filter_all. intros t [_ Ht]%In_remaining.
    apply negb_true_iff. by apply String.eqb_neq.
  - done.
Qed.

(** X22. Adding a track whose id no listed track has, and then deleting
    that id, gives back the list there was before; the new track is shown
    first in between. *)
Theorem add_then_delete_round_trip (track : Track) (p : Provider) :
  (∀ t, In t (tracks p) → id t ≠ id track) →
  let added := stateOf (addTrack (Some track) p) in
  tracks added = withStreamUrl track :: tracks p ∧
  stateOf (deleteTrack true (id track) added) = p.
Proof.
  intros Hfresh. simpl. split; [done|].
  rewrite String.eqb_refl. simpl.
  rewrite filter_all; [by destruct p|].
  intros t Ht. apply negb_true_iff, String.eqb_neq. by apply Hfresh.
Qed.

(** The list [demo] was loaded into; [live] is uploaded and deleted. *)
Lemma add_then_delete_round_trip_witness :
  let p := loadUserTracks (Some [demo]) (mkProvider [] true) in
  (∀ t, In t (tracks p) → id t ≠ id live) ∧
  stateOf (deleteTrack true (id live) (stateOf (addTrack (Some live) p))) = p.
Proof.
  intros p.
  assert (Hfresh : ∀ t, In t (tracks p) → id t ≠ id live).
  { intros t [<-|[]]. discriminate. }
  split; [exact Hfresh|].
  exact (proj2 (add_then_delete_round_trip live p Hfresh)).
Defined.

(** X23. Whatever the provider has been through since mount (sign-out,
    loads, uploads and deletes, accepted or refused), every track in its
    list is played from the streaming endpoint of its own id. *)
Theorem every_track_streams_by_id (calls : list Call) (t : Track) :
  In t (tracks (providerAfter calls)) →
  fileUrl t = "/api/stream/" +:+ id t.
Proof.
  unfold providerAfter. revert t.
  induction calls as [|c calls IH] using rev_ind; intros t; [done|].
  rewrite foldl_snoc. destruct c as [|[data|]|[track|]|[] trackId]; simpl.
  - done.
  - intros (t0 & <- & _)%in_map_iff. done.
  - apply IH.
  - intros [<-|Ht]; [done | by apply IH].
  - apply IH.
  - intros [Ht _]%In_remaining. by apply IH.
  - apply IH.
Qed.

(** A load of two tracks, then an upload that the server refuses. *)
Lemma every_track_streams_by_id_witness :
  let calls := [Load (Some [demo; live]); Add None] in
  In (withStreamUrl live) (tracks (providerAfter calls)) ∧
  fileUrl (withStreamUrl live) = "/api/stream/t2".
Proof.
  intros calls.
  assert (Hin : In (withStreamUrl live) (tracks (providerAfter calls))).
  { right. left. reflexivity. }
  split; [exact Hin|].
  exact (every_track_streams_by_id calls _ Hin).
Defined.

End TrackList.

(** * Properties of the upload endpoint *)

Module UploadRoute.
Import TracksContext Upload.

(** ** File extensions *)

Lemma split_cons sep s : ∃ seg segs, split sep s = seg :: segs.
Proof.
  induction s as [|c s (seg & segs & IH)]; simpl; [by eauto|].
  destruct (Ascii.eqb c sep); [by eauto|]. rewrite IH. by eauto.
Qed.

Lemma split_no_dot s : hasDot s = false → split "." s = [s].
Proof.
  induction s as [|c s IH]; simpl; [done|].
  intros [Hc Hs]%orb_false_iff. rewrite Hc, IH by done. done.
Qed.

(** Splitting at a separator splits the list of segments. *)
Lemma split_app sep a b :
  split sep (a +:+ String sep b) = split sep a ++ split sep b.
Proof.
  induction a as [|c a IH]; simpl.
  - by rewrite Ascii.eqb_refl.
  - destruct (Ascii.eqb c sep); [by rewrite IH|].
    rewrite IH. by destruct (split_cons sep a) as (seg & segs & ->).
Qed.

Lemma segments_have_no_dot s seg :
  In seg (split "." s) → hasDot seg = false.
Proof.
  revert seg. induction s as [|c s IH]; simpl; intros seg.
  - by intros [<-|[]].
  - destruct (Ascii.eqb c ".") eqn:Hc.
    + intros [<-|H]; [done | by apply IH].
    + destruct (split_cons "." s) as (seg0 & segs & E). rewrite E in *.
      intros [<-|H].
      * simpl. rewrite Hc. apply IH. by left.
      * apply IH. by right.
Qed.

Lemma pop_In l : l ≠ [] → ∃ x, pop l = Some x ∧ In x l.
Proof.
  unfold pop. induction l as [|x l IH]; [done|]. intros _.
  destruct l as [|y l]; [by exists x; split; [|left]|].
  destruct IH as (z & E & Hz); [done|].
  exists z. split; [exact E | by right].
Qed.

Lemma pop_app_singleton l x : pop (l ++ [x]) = Some x.
Proof. unfold pop. rewrite map_app. simpl. apply List.last_last. Qed.

(** X24. The extension the upload stores is never empty and never
    contains a dot.  For a name that ends in a dot followed by a non-empty
    dot-free extension it is that extension; a non-empty name without any
    dot is its own extension; a name that ends in a dot gets "mp3". *)
Theorem fileExtension_is_the_last_segment (name : string) :
  (fileExtension name ≠ "" ∧ hasDot (fileExtension name) = false) ∧
  (∀ base ext, name = base +:+ "." +:+ ext → hasDot ext = false →
     fileExtension name = if String.eqb ext "" then "mp3" else ext) ∧
  (hasDot name = false → name ≠ "" → fileExtension name = name).
Proof.
  split; [|split].
  - unfold fileExtension.
    destruct (split_cons "." name) as (seg & segs & E).
    destruct (pop_In (split "." name)) as (x & Hx & Hin);
      [by rewrite E|].
    rewrite Hx. destruct (String.eqb_spec x "") as [->|Hne]; [done|].
    split; [done|]. by eapply segments_have_no_dot.
  - intros base ext -> Hext. unfold fileExtension.
    change ("." +:+ ext) with (String "." ext).
    by rewrite split_app, (split_no_dot ext Hext), pop_app_singleton.
  - intros Hdot Hne. unfold fileExtension.
    rewrite split_no_dot by done. simpl.
    by destruct (String.eqb_spec name "").
Qed.

(** A recording with two dots in its name. *)
Lemma fileExtension_is_the_last_segment_witness :
  "my.song.wav" = "my.song" +:+ "." +:+ "wav" ∧ hasDot "wav" = false ∧
  fileExtension "my.song.wav" = "wav".
Proof.
  assert (E : "my.song.wav" = "my.song" +:+ "." +:+ "wav") by reflexivity.
  assert (H : hasDot "wav" = false) by reflexivity.
  split; [exact E|]. split; [exact H|].
  exact (proj1 (proj2 (fileExtension_is_the_last_segment "my.song.wav"))
           "my.song" "wav" E H).
Defined.

(** ** What the endpoint accepts *)

Lemma validTypes_includes ty :
  existsb (String.eqb ty) validTypes = true ↔ In ty validTypes.
Proof.
  rewrite existsb_exists. split.
  - intros (x & Hx & E). apply String.eqb_eq in E. by subst.
  - intros H. exists ty. split; [done|]. apply String.eqb_refl.
Qed.

(** X25. The upload endpoint creates a track exactly when the caller is
    signed in, file and a non-empty title are present, the file's type is
    one of the five audio types, its size is at most 52428800 bytes, and
    the file and the row could be written.  The created track then belongs
    to the caller and records the file's name and size, duration 0 and the
    given title.  Without a signed-in user the answer is 401 whatever else
    is sent. *)
Theorem upload_accepts_exactly (toUpperCase : string → string)
    (user : option TrackUser) (file : option File) (title : option string)
    (uuid : string) (stored : bool) (newId now : string) :
  ((∃ track,
      POST toUpperCase user file title uuid stored newId now = Created track)
   ↔ ∃ u f t, user = Some u ∧ file = Some f ∧ title = Some t ∧ t ≠ "" ∧
       In (file_type f) validTypes ∧ (file_size f <= 52428800)%Z ∧
       stored = true) ∧
  (∀ track,
     POST toUpperCase user file title uuid stored newId now = Created track →
     Some (userId track) = user_id <$> user ∧
     Some (TracksContext.title track) = title ∧
     Some (filename track) = file_name <$> file ∧
     Some (fileSize track) = file_size <$> file ∧
     duration track = 0) ∧
  (user = None →
   POST toUpperCase user file title uuid stored newId now
   = Failure 401 "Not authenticated").
Proof.
  unfold POST. split; [|split].
  - split.
    + intros [track H].
      destruct user as [u|]; [|done].
      destruct file as [f|], title as [t|]; try done.
      destruct (String.eqb_spec t "") as [->|Hne]; [done|].
      destruct (existsb _ validTypes) eqn:Hty; [|done].
      destruct (maxSize <? file_size f)%Z eqn:Hsz; [done|].
      destruct stored; [|done].
      exists u, f, t. repeat split; try done.
      * by apply validTypes_includes.
      * apply Z.ltb_ge in Hsz. exact Hsz.
    + intros (u & f & t & -> & -> & -> & Hne & Hty & Hsz & ->).
      apply String.eqb_neq in Hne. rewrite Hne.
      apply validTypes_includes in Hty. rewrite Hty.
      assert (Hle : (maxSize <? file_size f)%Z = false)
        by (by apply Z.ltb_ge).
      rewrite Hle. simpl. by eexists.
  - intros track H.
    destruct user as [u|]; [|done].
    destruct file as [f|], title as [t|]; try done.
    destruct (String.eqb t ""); [done|].
    destruct (existsb _ validTypes); [|done].
    destruct (maxSize <? file_size f)%Z; [done|].
    destruct stored; [|done].
    simpl in H. by injection H as <-.
  - by intros ->.
Qed.

(** X26. The size of a track the upload endpoint created, shown by the
    track card: it never reads more than 50.0 MB. *)
Theorem accepted_upload_shows_at_most_50_MB (toUpperCase : string → string)
    (user : option TrackUser) (file : option File) (title : option string)
    (uuid : string) (stored : bool) (newId now : string) (track : Track) :
  POST toUpperCase user file title uuid stored newId now = Created track →
  (0 <= fileSize track)%Z →
  ∃ tenths : Z,
    TrackCard.formatFileSize (fileSize track)
    = TrackCard.showTenths tenths
      +:+ (if (fileSize track <? 1048576)%Z then " KB" else " MB") ∧
    (0 <= tenths)%Z ∧
    ((fileSize track <? 1048576)%Z = false → tenths <= 500)%Z.
Proof.
  intros H Hpos.
  assert (Hmax : (fileSize track <= 52428800)%Z).
  { unfold POST in H.
    destruct user as [u|]; [|done].
    destruct file as [f|], title as [t|]; try done.
    destruct (String.eqb t ""); [done|].
    destruct (existsb _ validTypes); [|done].
    destruct (maxSize <? file_size f)%Z eqn:Hsz; [done|].
    destruct stored; [|done].
    simpl in H. injection H as <-. simpl.
    apply Z.ltb_ge in Hsz. exact Hsz. }
  rewrite Display.formatFileSize_tenths by done.
  destruct (fileSize track <? 1048576)%Z eqn:Hs.
  - exists ((20 * fileSize track + 1024) / 2048)%Z.
    split; [done|]. split; [|done].
    apply Z.div_pos; lia.
  - exists ((20 * fileSize track + 1048576) / 2097152)%Z.
    split; [done|]. split; [apply Z.div_pos; lia|].
    intros _.
    pose proof (Z.div_mod (20 * fileSize track + 1048576) 2097152
                  ltac:(lia)) as Hdm.
    pose proof (Z.mod_pos_bound (20 * fileSize track + 1048576) 2097152
                  ltac:(lia)) as Hm.
    set (t := ((20 * fileSize track + 1048576) / 2097152)%Z) in *. lia.
Qed.

(** A file of exactly the maximum size is accepted and shown as 50.0 MB. *)
Lemma accepted_upload_shows_at_most_50_MB_witness :
  let u := mkTrackUser "u1" "ann" "Ann" in
  let f := mkFile "big.wav" "audio/wav" 52428800 in
  ∃ track,
    POST (λ s, s) (Some u) (Some f) (Some "Big") "uuid" true "t9" "now"
    = Created track ∧
    (0 <= fileSize track)%Z ∧
    TrackCard.formatFileSize (fileSize track) = "50.0 MB".
Proof.
  intros u f.
  destruct (POST (λ s, s) (Some u) (Some f) (Some "Big") "uuid" true "t9"
              "now") as [code err|track] eqn:E; [discriminate E|].
  exists track.
  assert (Hpos : (0 <= fileSize track)%Z).
  { injection E as <-. simpl. lia. }
  split; [reflexivity|]. split; [exact Hpos|].
  destruct (accepted_upload_shows_at_most_50_MB (λ s, s) (Some u) (Some f)
              (Some "Big") "uuid" true "t9" "now" track E Hpos)
    as (tenths & Et & _).
  injection E as <-. reflexivity.
Defined.

End UploadRoute.
